(** * infercnvpy.tl._scores: per-group CNV and heterogeneity scores

    A shallow embedding of [src/infercnvpy/tl/_scores.py] and the
    properties of its three entry points [cnv_score], [ithgex] and
    [ithcna].

    Conventions of the embedding.
    - A float64 is idealised as an exact canonical rational ([Qc]); rounding
      and not-a-number are outside the model (a division by zero yields [0]
      where numpy yields nan).  Pearson's coefficient needs a square root and
      is therefore a parameter of the development.
    - The [AnnData] object the functions receive is the only mutable state.
      A computation is a function from the dataset to an [outcome]: a value
      or a raised exception, the dataset afterwards, and the warnings emitted.
    - [adata.obs] is a map from column names to columns, [adata.obsm] and
      [adata.layers] are maps from keys to matrices, a Python [dict] is a
      [gmap] on the values a column can hold. *)

From Stdlib Require Import QArith Qcanon PrimFloat.
From stdpp Require Import base numbers strings list gmap fin_maps sorting pretty.

Local Open Scope string_scope.
Local Open Scope Qc_scope.

(** ** Numbers *)

Definition Qc_of_nat (n : nat) : Qc := Qc_of_Z (Z.of_nat n).

Definition Qcabs (x : Qc) : Qc := if decide (0 ≤ x) then x else - x.

Definition sum_Qc (l : list Qc) : Qc := foldr Qcplus 0 l.

(** ** Values held by a column of [adata.obs] *)

Inductive obsval :=
| VStr (s : string)
| VNum (x : Qc).

#[global] Instance obsval_eq_dec : EqDecision obsval.
Proof. solve_decision. Defined.

#[global] Instance obsval_countable : Countable obsval :=
  inj_countable'
    (λ v, match v with VStr s => inl s | VNum x => inr x end)
    (λ s, match s with inl s => VStr s | inr x => VNum x end)
    (λ v, match v with VStr _ => eq_refl | VNum _ => eq_refl end).

(** ** Matrices

    A matrix is dense (a list of rows) or sparse (per row, the stored
    entries as pairs of a column index and a value, as in CSR). *)

Inductive mtx :=
| Dense (ncols : nat) (rows : list (list Qc))
| Sparse (ncols : nat) (rows : list (list (nat * Qc))).

(** [m.shape[0]] *)
Definition shape0 (m : mtx) : nat :=
  match m with
  | Dense _ rows => length rows
  | Sparse _ rows => length rows
  end.

Definition shape1 (m : mtx) : nat :=
  match m with
  | Dense c _ => c
  | Sparse c _ => c
  end.

(** [scipy.sparse.issparse] *)
Definition issparse (m : mtx) : bool :=
  match m with
  | Dense _ _ => false
  | Sparse _ _ => true
  end.

(** The dense row of a sparse row: entry [j] is the sum of the values stored
    at column [j]. *)
Definition sparse_entry (r : list (nat * Qc)) (j : nat) : Qc :=
  sum_Qc (snd <$> filter (λ e, e.1 = j) r).

Definition dense_row (c : nat) (r : list (nat * Qc)) : list Qc :=
  sparse_entry r <$> seq 0 c.

(** The rows of the matrix, as dense vectors. *)
Definition dense_rows (m : mtx) : list (list Qc) :=
  match m with
  | Dense _ rows => rows
  | Sparse c rows => dense_row c <$> rows
  end.

(** [X.todense()] *)
Definition todense (m : mtx) : mtx := Dense (shape1 m) (dense_rows m).

(** Boolean-mask indexing of a sequence: the elements at the positions where
    the mask is [true]. *)
Fixpoint select {A} (mask : list bool) (l : list A) : list A :=
  match mask, l with
  | b :: mask, x :: l => if b then x :: select mask l else select mask l
  | _, _ => []
  end.

(** [m[mask, :]] *)
Definition mtx_getitem_rows (m : mtx) (mask : list bool) : mtx :=
  match m with
  | Dense c rows => Dense c (select mask rows)
  | Sparse c rows => Sparse c (select mask rows)
  end.

(** [np.abs(m)]: elementwise; on a sparse matrix, on the stored values. *)
Definition np_abs (m : mtx) : mtx :=
  match m with
  | Dense c rows => Dense c (map (map Qcabs) rows)
  | Sparse c rows => Sparse c (map (map (prod_map id Qcabs)) rows)
  end.

(** [np.mean(m)]: the sum of all entries over their number; for a sparse
    matrix, the sum of the stored values over [shape[0] * shape[1]]. *)
Definition np_mean (m : mtx) : Qc :=
  match m with
  | Dense _ rows => sum_Qc (concat rows) / Qc_of_nat (length (concat rows))
  | Sparse c rows => sum_Qc (snd <$> concat rows) / Qc_of_nat (length rows * c)
  end.

(** A matrix is well formed when every dense row has [ncols] entries, and
    every sparse row stores each column at most once, within range. *)
Definition wf_mtx (m : mtx) : Prop :=
  match m with
  | Dense c rows => Forall (λ r, length r = c) rows
  | Sparse c rows =>
      Forall (λ r, NoDup (fst <$> r) ∧ Forall (λ e, e.1 < c)%nat r) rows
  end.

#[global] Instance wf_mtx_dec m : Decision (wf_mtx m).
Proof. destruct m; simpl; apply _. Defined.

(** ** n-dimensional arrays, as [np.corrcoef] returns them *)

Record ndarray := mk_ndarray { shape : list nat; data : list Qc }.

(** ** The annotated data matrix *)

Record AnnData := mkAnnData {
  obs_names : list string;
  X : mtx;
  raw : option mtx;
  layers : gmap string mtx;
  obsm : gmap string mtx;
  obs : gmap string (list obsval)
}.

(** [adata.shape[0]] *)
Definition n_obs (adata : AnnData) : nat := length (obs_names adata).

(** The invariant the [AnnData] class maintains: every matrix and every
    annotation column has one row per cell. *)
Definition aligned (n : nat) (m : mtx) : Prop := wf_mtx m ∧ shape0 m = n.

Definition wf_adata (adata : AnnData) : Prop :=
  aligned (n_obs adata) (X adata)
  ∧ from_option (aligned (n_obs adata)) True (raw adata)
  ∧ map_Forall (λ _, aligned (n_obs adata)) (layers adata)
  ∧ map_Forall (λ _, aligned (n_obs adata)) (obsm adata)
  ∧ map_Forall (λ _ col, length col = n_obs adata) (obs adata).

#[global] Instance wf_adata_dec adata : Decision (wf_adata adata).
Proof.
  unfold wf_adata, aligned. destruct (raw adata); simpl; apply _.
Defined.

(** [adata[mask, :]]: the view on the cells selected by a boolean mask. *)
Definition adata_getitem (adata : AnnData) (mask : list bool) : AnnData :=
  {| obs_names := select mask (obs_names adata);
     X := mtx_getitem_rows (X adata) mask;
     raw := (λ m, mtx_getitem_rows m mask) <$> raw adata;
     layers := (λ m, mtx_getitem_rows m mask) <$> layers adata;
     obsm := (λ m, mtx_getitem_rows m mask) <$> obsm adata;
     obs := select mask <$> obs adata |}.

(** [series == value], elementwise *)
Definition series_eq (col : list obsval) (v : obsval) : list bool :=
  (λ c, bool_decide (c = v)) <$> col.

(** [series.unique()]: the distinct values in order of first appearance. *)
Fixpoint unique (col : list obsval) : list obsval :=
  match col with
  | [] => []
  | v :: col => v :: filter (λ w, w ≠ v) (unique col)
  end.

(** ** Exceptions, warnings and the monad of computations on the dataset *)

Inductive exn :=
| ValueError (msg : string)
| KeyError (key : obsval)
| AssertionError (msg : string)
| AttributeError (msg : string).

Inductive res (A : Type) :=
| Ok (x : A)
| Raise (e : exn).
Arguments Ok {A} x.
Arguments Raise {A} e.

Inductive warning :=
| FutureWarning (msg : string).

Record outcome (A : Type) := mk_outcome {
  result : res A;          (* the value returned, or the exception raised *)
  after : AnnData;         (* the dataset when the computation stops *)
  warned : list warning    (* the warnings emitted, oldest first *)
}.
Arguments mk_outcome {A} result after warned.
Arguments result {A} o.
Arguments after {A} o.
Arguments warned {A} o.

Definition M (A : Type) : Type := AnnData → outcome A.

#[global] Instance M_ret : MRet M := λ A x adata, mk_outcome (Ok x) adata [].

#[global] Instance M_bind : MBind M := λ A B f m adata,
  let o := m adata in
  match result o with
  | Ok x =>
      let o' := f x (after o) in
      mk_outcome (result o') (after o') (warned o ++ warned o')
  | Raise e => mk_outcome (Raise e) (after o) (warned o)
  end.

#[global] Instance M_fmap : FMap M := λ A B f m, x ← m; mret (f x).

Definition raise {A} (e : exn) : M A := λ adata, mk_outcome (Raise e) adata [].

(** [warnings.warn(msg, category=FutureWarning)] *)
Definition warn (w : warning) : M () := λ adata, mk_outcome (Ok ()) adata [w].

Definition lift {A} (r : res A) : M A := λ adata, mk_outcome r adata [].

(** Reading an attribute of the dataset. *)
Definition gets {A} (f : AnnData → A) : M A :=
  λ adata, mk_outcome (Ok (f adata)) adata [].

(** [for x in xs: acc = body(x, acc)], stopping at the first exception. *)
Fixpoint for_each {A S} (xs : list A) (body : A → S → M S) (acc : S) : M S :=
  match xs with
  | [] => mret acc
  | x :: xs => acc ← body x acc; for_each xs body acc
  end.

(** [[f(x) for x in xs]] *)
Fixpoint list_comp {A B} (f : A → M B) (xs : list A) : M (list B) :=
  match xs with
  | [] => mret []
  | x :: xs => y ← f x; ys ← list_comp f xs; mret (y :: ys)
  end.

(** [d[key]] on a mapping with string keys: the value, or [KeyError]. *)
Definition getitem {V} (d : gmap string V) (key : string) : res V :=
  match d !! key with
  | Some v => Ok v
  | None => Raise (KeyError (VStr key))
  end.

(** [adata.obs[key]] *)
Definition obs_getitem (key : string) : M (list obsval) :=
  λ adata, lift (getitem (obs adata) key) adata.

(** [key in adata.obs.columns] *)
Definition obs_contains (key : string) : M bool :=
  gets (λ adata, bool_decide (is_Some (obs adata !! key))).

(** [adata.obsm[key]] *)
Definition obsm_getitem (key : string) : M mtx :=
  λ adata, lift (getitem (obsm adata) key) adata.

(** The dataset with the column [key] of [adata.obs] set to an array of
    numbers. *)
Definition set_obs (adata : AnnData) (key : string) (array : list Qc) : AnnData :=
  {| obs_names := obs_names adata; X := X adata; raw := raw adata;
     layers := layers adata; obsm := obsm adata;
     obs := <[key := VNum <$> array]> (obs adata) |}.

(** [adata.obs[key] = array] *)
Definition obs_setitem (key : string) (array : list Qc) : M () :=
  λ adata, mk_outcome (Ok ()) (set_obs adata key array) [].

(** [d[key]] on a dict *)
Definition dict_getitem (d : gmap obsval Qc) (key : obsval) : M Qc :=
  match d !! key with
  | Some v => mret v
  | None => raise (KeyError key)
  end.

(** ** [cnv_score] *)

Definition cnv_score_groupby_default : string := "cnv_leiden".
Definition cnv_score_use_rep_default : string := "cnv".
Definition cnv_score_key_added_default : string := "cnv_score".

Definition obs_key_deprecated : warning :=
  FutureWarning
    ("The obs_key argument has been renamed to `groupby` for consistency with "
     +:+ "other functions and will be removed in the future. ").

Definition cnv_leiden_not_found : exn :=
  ValueError "`cnv_leiden` not found in `adata.obs`. Did you run `tl.leiden`?".

Definition cnv_score (groupby use_rep key_added : string) (inplace : bool)
    (obs_key : option string) : M (option (gmap obsval Qc)) :=
  groupby ← match obs_key with
            | Some k => warn obs_key_deprecated;; mret k
            | None => mret (M := M) groupby
            end;
  present ← obs_contains groupby;
  if negb present && bool_decide (groupby = "cnv_leiden")
  then raise cnv_leiden_not_found
  else
    clusters ← unique <$> obs_getitem groupby;
    cluster_score ←
      for_each clusters (λ cluster d,
        rep ← obsm_getitem ("X_" +:+ use_rep);
        labels ← obs_getitem groupby;
        mret (<[cluster :=
                 np_mean (np_abs (mtx_getitem_rows rep (series_eq labels cluster)))]> d))
        ∅;
    if inplace then
      labels ← obs_getitem groupby;
      score_array ← list_comp (dict_getitem cluster_score) labels;
      obs_setitem key_added score_array;;
      mret None
    else mret (Some cluster_score).

(** ** The numpy kernels of the heterogeneity scores *)

(** [np.empty(n)] returns whatever the allocated memory holds; [heap] gives
    that content, position by position. *)
Definition np_empty (heap : nat → Qc) (n : nat) : list Qc := heap <$> seq 0 n.

(** [arr[mask] = v] *)
Fixpoint setitem_mask (arr : list Qc) (mask : list bool) (v : Qc) : list Qc :=
  match arr, mask with
  | x :: arr, b :: mask => (if b then v else x) :: setitem_mask arr mask v
  | arr, _ => arr
  end.

(** [np.percentile(a, q)], numpy's default linear interpolation: the data
    are flattened and sorted, the virtual index is [q / 100 * (n - 1)]. *)
Definition np_percentile (a : ndarray) (q : nat) : Qc :=
  let sorted := merge_sort Qcle (data a) in
  let n := length sorted in
  let pos := (q * (n - 1))%nat in
  let lo := (pos / 100)%nat in
  let hi := ((lo + 1) `min` (n - 1))%nat in
  let gamma := Qc_of_nat (pos mod 100) / Qc_of_nat 100 in
  nth lo sorted 0 + (nth hi sorted 0 - nth lo sorted 0) * gamma.

(** The [repr] of a shape tuple, as an f-string prints it. *)
Definition repr_shape (sh : list nat) : string :=
  match sh with
  | [] => "()"
  | [n] => "(" +:+ pretty n +:+ ",)"
  | n :: sh =>
      "(" +:+ pretty n +:+ foldr (λ k s, ", " +:+ pretty k +:+ s) ")" sh
  end.

(** Modelled from the spec: [infercnvpy._util._choose_mtx_rep], which is not
    part of this module.  "An explicitly chosen layer, a raw-count
    alternative, or the primary matrix -- exactly one source chosen by
    explicit precedence: layer > raw/primary per flag > default", the default
    being [.raw] if available and [.X] otherwise. *)
Definition choose_mtx_rep_spec (adata : AnnData) (use_raw : option bool)
    (layer : option string) : res mtx :=
  match layer with
  | Some l => getitem (layers adata) l
  | None =>
      match use_raw, raw adata with
      | Some false, _ => Ok (X adata)
      | Some true, None => Raise (AttributeError "raw")
      | _, Some m => Ok m
      | None, None => Ok (X adata)
      end
  end.

Section heterogeneity.

(** [infercnvpy._util._choose_mtx_rep] lives outside this module: the
    matrix of a dataset selected by [use_raw] and [layer], or an exception. *)
Variable _choose_mtx_rep : AnnData → option bool → option string → res mtx.

(** Pearson's correlation coefficient of two rows. *)
Variable pearson : list Qc → list Qc → Qc.

(** The content of freshly allocated memory. *)
Variable heap : nat → Qc.

(** [np.corrcoef(x, rowvar=True)] of a dense matrix: entry [(i, j)] is the
    coefficient of rows [i] and [j].  A single row gives a 0-dimensional
    array. *)
Definition np_corrcoef (x : mtx) : ndarray :=
  let rows := dense_rows x in
  match rows with
  | [r] => mk_ndarray [] [pearson r r]
  | _ =>
      mk_ndarray [length rows; length rows]
        (concat (map (λ ri, map (λ rj, pearson ri rj) rows) rows))
  end.

Definition ithgex_key_added_default : string := "ithgex".

Definition ithgex (groupby : string) (use_raw : option bool)
    (layer : option string) (inplace : bool) (key_added : string)
    : M (option (gmap obsval Qc)) :=
  groups ← unique <$> obs_getitem groupby;
  ithgex ←
    for_each groups (λ group ithgex,
      labels ← obs_getitem groupby;
      tmp_adata ← gets (λ adata, adata_getitem adata (series_eq labels group));
      X ← lift (_choose_mtx_rep tmp_adata use_raw layer);
      let X := if issparse X then todense X else X in
      if bool_decide (shape0 X ≤ 1)%nat then mret ithgex
      else
        let pcorr := np_corrcoef X in
        if bool_decide (shape pcorr = [n_obs tmp_adata; n_obs tmp_adata])
        then
          let q75 := np_percentile pcorr 75 in
          let q25 := np_percentile pcorr 25 in
          mret (<[group := q75 - q25]> ithgex)
        else
          raise (AssertionError
                   ("pcorr is a cell x cell matrix "
                    +:+ pretty (n_obs tmp_adata) +:+ " "
                    +:+ repr_shape (shape pcorr))))
      ∅;
  if inplace then
    n ← gets n_obs;
    ithgex_obs ←
      for_each groups (λ group ithgex_obs,
        score ← dict_getitem ithgex group;
        labels ← obs_getitem groupby;
        mret (setitem_mask ithgex_obs (series_eq labels group) score))
        (np_empty heap n);
    obs_setitem key_added ithgex_obs;;
    mret None
  else mret (Some ithgex).

Definition ithcna_use_rep_default : string := "X_cnv".
Definition ithcna_key_added_default : string := "ithgex".

Definition ithcna (groupby use_rep key_added : string) (inplace : bool)
    : M (option (gmap obsval Qc)) :=
  groups ← unique <$> obs_getitem groupby;
  ithcna ←
    for_each groups (λ group ithcna,
      labels ← obs_getitem groupby;
      tmp_adata ← gets (λ adata, adata_getitem adata (series_eq labels group));
      X ← lift (getitem (obsm tmp_adata) use_rep);
      let X := if issparse X then todense X else X in
      if bool_decide (shape0 X ≤ 1)%nat then mret ithcna
      else
        let pcorr := np_corrcoef X in
        if bool_decide (shape pcorr = [n_obs tmp_adata; n_obs tmp_adata])
        then
          let q75 := np_percentile pcorr 75 in
          let q25 := np_percentile pcorr 25 in
          mret (<[group := q75 - q25]> ithcna)
        else raise (AssertionError "pcorr is a cell x cell matrix"))
      ∅;
  if inplace then
    n ← gets n_obs;
    ithcna_obs ←
      for_each groups (λ group ithcna_obs,
        score ← dict_getitem ithcna group;
        labels ← obs_getitem groupby;
        mret (setitem_mask ithcna_obs (series_eq labels group) score))
        (np_empty heap n);
    obs_setitem key_added ithcna_obs;;
    mret None
  else mret (Some ithcna).

End heterogeneity.

(** * Specification vocabulary

    The notions the properties below are stated with: what it means for a
    computation to return or to raise, the quantities the scores are compared
    with, the algorithm [ithgex] and [ithcna] share, and the datasets of the
    examples. *)

(** ** Outcomes of computations *)

(** [returns m adata x]: from [adata], [m] returns [x], leaves the dataset as
    it is and emits no warning.  [raises m adata e]: it raises [e] likewise. *)
Definition returns {A} (m : M A) (adata : AnnData) (x : A) : Prop :=
  m adata = mk_outcome (Ok x) adata [].

Definition raises {A} (m : M A) (adata : AnnData) (e : exn) : Prop :=
  m adata = mk_outcome (Raise e) adata [].

(** [post m adata Q]: run from [adata], [m] stops with a result and a dataset
    that satisfy [Q]. *)
Definition post {A} (m : M A) (adata : AnnData)
    (Q : res A → AnnData → Prop) : Prop :=
  Q (result (m adata)) (after (m adata)).

(** [readonly m]: whatever the dataset, [m] leaves it as it is and emits no
    warning. *)
Definition readonly {A} (m : M A) : Prop :=
  ∀ adata, ∃ r, m adata = mk_outcome r adata [].

(** [yields P m]: whatever [m] returns satisfies [P]. *)
Definition yields {A} (P : A → Prop) (m : M A) : Prop :=
  ∀ adata x, result (m adata) = Ok x → P x.

(** The classes of the exceptions. *)
Definition is_KeyError (e : exn) : Prop :=
  match e with KeyError _ => True | _ => False end.

Definition is_AssertionError (e : exn) : Prop :=
  match e with AssertionError _ => True | _ => False end.

(** [only_KeyError r adata]: the result is a value or a failed lookup. *)
Definition only_KeyError {A} (r : res A) (_ : AnnData) : Prop :=
  match r with Ok _ => True | Raise e => is_KeyError e end.

(** [not_AssertionError r]: the result is not a failed assertion. *)
Definition not_AssertionError {A} (r : res A) : Prop :=
  match r with Raise e => ¬ is_AssertionError e | Ok _ => True end.

(** Two outcomes agree up to the text of a failed assertion. *)
Definition same_up_to_message {A} (adata : AnnData) (o o' : outcome A) : Prop :=
  o = o'
  ∨ ∃ msg msg',
      o = mk_outcome (Raise (AssertionError msg)) adata []
      ∧ o' = mk_outcome (Raise (AssertionError msg')) adata [].

(** Exceptions and results can be compared. *)
#[global] Instance exn_eq_dec : EqDecision exn.
Proof. solve_decision. Defined.
#[global] Instance res_eq_dec `{EqDecision A} : EqDecision (res A).
Proof. solve_decision. Defined.

(** ** The score of [cnv_score] *)

(** The warnings [cnv_score] emits for its deprecated [obs_key] argument. *)
Definition obs_key_warnings (obs_key : option string) : list warning :=
  match obs_key with Some _ => [obs_key_deprecated] | None => [] end.

(** The mean of the absolute values of all entries of some rows. *)
Definition mean_abs (rows : list (list Qc)) : Qc :=
  sum_Qc (Qcabs <$> concat rows) / Qc_of_nat (length (concat rows)).

(** The rows of a matrix that belong to the cells labelled [cluster]. *)
Definition group_rows (labels : list obsval) (m : mtx) (cluster : obsval)
    : list (list Qc) :=
  select (series_eq labels cluster) (dense_rows m).

(** The value [cnv_score] computes for a cluster. *)
Definition cnv_cluster_score (labels : list obsval) (rep : mtx) (cluster : obsval) : Qc :=
  np_mean (np_abs (mtx_getitem_rows rep (series_eq labels cluster))).

(** [store f x d]: the dict [d] after [d[x] = v] when [f x] is [Some v],
    and [d] itself when the element is skipped. *)
Definition store (f : obsval → option Qc) (x : obsval) (d : gmap obsval Qc)
    : gmap obsval Qc :=
  match f x with Some v => <[x := v]> d | None => d end.

(** The dict a loop over [xs] builds with [store]. *)
Definition collect (f : obsval → option Qc) (xs : list obsval)
    (d : gmap obsval Qc) : gmap obsval Qc :=
  foldl (flip (store f)) d xs.

(** ** The scores of [ithgex] and [ithcna] *)

(** The view on the cells of a group: [adata[adata.obs[groupby] == group, :]]. *)
Definition group_view (adata : AnnData) (labels : list obsval) (group : obsval)
    : AnnData :=
  adata_getitem adata (series_eq labels group).

(** The number of cells of a group. *)
Definition group_size (labels : list obsval) (group : obsval) : nat :=
  length (filter (λ w, w = group) labels).

(** The interquartile range of the entries of an array. *)
Definition iqr (a : ndarray) : Qc := np_percentile a 75 - np_percentile a 25.

(** All the coefficients of the rows, pair by pair in row-major order. *)
Definition full_corr (pearson : list Qc → list Qc → Qc) (rows : list (list Qc))
    : list Qc :=
  ri ← rows; rj ← rows; [pearson ri rj].

(** The score the loop stores for a group whose matrix is [X]; none for a
    matrix of at most one row. *)
Definition ith_score (pearson : list Qc → list Qc → Qc) (X : mtx) : option Qc :=
  if bool_decide (shape0 X ≤ 1)%nat then None
  else Some (iqr (mk_ndarray [shape0 X; shape0 X] (full_corr pearson (dense_rows X)))).

(** The score of a group, from the matrix the source gives for its view. *)
Definition ith_score_of (source : AnnData → res mtx)
    (pearson : list Qc → list Qc → Qc) (adata : AnnData) (labels : list obsval)
    (group : obsval) : option Qc :=
  match source (group_view adata labels group) with
  | Ok X => ith_score pearson X
  | Raise _ => None
  end.

(** The mapping from groups to scores. *)
Definition ith_scores (source : AnnData → res mtx)
    (pearson : list Qc → list Qc → Qc) (adata : AnnData) (labels : list obsval)
    : gmap obsval Qc :=
  collect (ith_score_of source pearson adata labels) (unique labels) ∅.

(** Every group's matrix is found and has one row per cell of the group. *)
Definition source_aligned (source : AnnData → res mtx) (adata : AnnData)
    (labels : list obsval) : Prop :=
  ∀ group, group ∈ labels →
    ∃ X, source (group_view adata labels group) = Ok X
         ∧ shape0 X = n_obs (group_view adata labels group).

(** A source hands out matrices with one row per cell of the dataset it is
    given, and does not raise [AssertionError] itself. *)
Definition source_well_behaved (source : AnnData → res mtx) : Prop :=
  ∀ tmp, wf_adata tmp →
    match source tmp with
    | Ok X => shape0 X = n_obs tmp
    | Raise e => ¬ is_AssertionError e
    end.

(** The array the broadcasting loop leaves after the groups [xs]. *)
Definition assign (scores : gmap obsval Qc) (labels : list obsval)
    (group : obsval) (arr : list Qc) : list Qc :=
  setitem_mask arr (series_eq labels group) (default 0 (scores !! group)).

(** [scored_by_group adata groupby key_added adata']: in [adata'] the column
    [key_added] has one number per cell of [adata], the same number for any
    two cells that the column [groupby] of [adata] puts in the same group. *)
Definition scored_by_group (adata : AnnData) (groupby key_added : string)
    (adata' : AnnData) : Prop :=
  ∃ labels col,
    obs adata !! groupby = Some labels
    ∧ obs adata' !! key_added = Some col
    ∧ length col = n_obs adata
    ∧ ∀ i j group, labels !! i = Some group → labels !! j = Some group →
        ∃ score, col !! i = Some (VNum score) ∧ col !! j = Some (VNum score).

(** ** The algorithm [ithgex] and [ithcna] share

    [ithgex] and [ithcna] differ in where the matrix of a group comes from
    and in the message of the shape assertion; [ith_algorithm] is their
    common text with these two as parameters ([ithgex_algorithm] and
    [ithcna_algorithm] below state that each function is an instance). *)

(** The body of the scoring loop, for a matrix [source] and the [message] of
    the shape assertion. *)
Definition ith_group (source : AnnData → res mtx)
    (message : nat → list nat → string) (pearson : list Qc → list Qc → Qc)
    (groupby : string) (group : obsval) (scores : gmap obsval Qc)
    : M (gmap obsval Qc) :=
  labels ← obs_getitem groupby;
  tmp_adata ← gets (λ adata, adata_getitem adata (series_eq labels group));
  X ← lift (source tmp_adata);
  let X := if issparse X then todense X else X in
  if bool_decide (shape0 X ≤ 1)%nat then mret scores
  else
    let pcorr := np_corrcoef pearson X in
    if bool_decide (shape pcorr = [n_obs tmp_adata; n_obs tmp_adata])
    then
      let q75 := np_percentile pcorr 75 in
      let q25 := np_percentile pcorr 25 in
      mret (<[group := q75 - q25]> scores)
    else raise (AssertionError (message (n_obs tmp_adata) (shape pcorr))).

(** The body of the broadcasting loop. *)
Definition ith_assign (groupby : string) (scores : gmap obsval Qc)
    (group : obsval) (arr : list Qc) : M (list Qc) :=
  score ← dict_getitem scores group;
  labels ← obs_getitem groupby;
  mret (setitem_mask arr (series_eq labels group) score).

(** The two loops, around the two bodies. *)
Definition ith_algorithm (source : AnnData → res mtx)
    (message : nat → list nat → string) (pearson : list Qc → list Qc → Qc)
    (heap : nat → Qc) (groupby : string) (inplace : bool) (key_added : string)
    : M (option (gmap obsval Qc)) :=
  groups ← unique <$> obs_getitem groupby;
  scores ← for_each groups (ith_group source message pearson groupby) ∅;
  if inplace then
    n ← gets n_obs;
    arr ← for_each groups (ith_assign groupby scores) (np_empty heap n);
    obs_setitem key_added arr;;
    mret None
  else mret (Some scores).

(** The message of the shape assertion, in [ithgex] and in [ithcna]. *)
Definition ithgex_message (n : nat) (sh : list nat) : string :=
  "pcorr is a cell x cell matrix " +:+ pretty n +:+ " " +:+ repr_shape sh.

Definition ithcna_message (n : nat) (sh : list nat) : string :=
  "pcorr is a cell x cell matrix".

(** ** The datasets of the examples *)

(** The dataset of the specification's scenario: four cells, the groups
    A, A, B, B. *)
Definition scenario : AnnData :=
  {| obs_names := ["cell0"; "cell1"; "cell2"; "cell3"];
     X := Dense 0 [[]; []; []; []];
     raw := None;
     layers := ∅;
     obsm := {[ "X_cnv" :=
                  Dense 2 [[Q2Qc 0.1; Q2Qc (-0.2)]; [Q2Qc 0.3; Q2Qc (-0.1)];
                           [Q2Qc 1.0; Q2Qc 1.0]; [Q2Qc 1.0; Q2Qc 1.0]] ]};
     obs := {[ "cnv_leiden" := [VStr "A"; VStr "A"; VStr "B"; VStr "B"] ]} |}.

(** A dataset with two groups of two cells, its expression matrix and its
    CNV representation. *)
Definition two_groups : AnnData :=
  {| obs_names := ["cell0"; "cell1"; "cell2"; "cell3"];
     X := Dense 3 [[Q2Qc 1.0; Q2Qc 2.0; Q2Qc 4.0]; [Q2Qc 2.0; Q2Qc 1.0; Q2Qc 0.5];
                   [Q2Qc 0.0; Q2Qc 1.0; Q2Qc 3.0]; [Q2Qc 5.0; Q2Qc 1.0; Q2Qc 2.0]];
     raw := None;
     layers := ∅;
     obsm := {[ "X_cnv" :=
                  Sparse 3 [[(0%nat, Q2Qc 0.1); (2%nat, Q2Qc (-0.2))];
                            [(1%nat, Q2Qc 0.3)]; []; [(0%nat, Q2Qc 1.0)]] ]};
     obs := {[ "patient" := [VStr "P1"; VStr "P2"; VStr "P1"; VStr "P2"] ]} |}.

(** Three cells; patient A has two of them, patient B one. *)
Definition with_singleton : AnnData :=
  {| obs_names := ["cell0"; "cell1"; "cell2"];
     X := Dense 2 [[Q2Qc 1.0; Q2Qc 2.0]; [Q2Qc 2.0; Q2Qc 1.0];
                   [Q2Qc 0.0; Q2Qc 1.0]];
     raw := None;
     layers := ∅;
     obsm := {[ "X_cnv" :=
                  Dense 2 [[Q2Qc 0.1; Q2Qc (-0.2)]; [Q2Qc 0.3; Q2Qc (-0.1)];
                           [Q2Qc 1.0; Q2Qc 1.0]] ]};
     obs := {[ "patient" := [VStr "A"; VStr "A"; VStr "B"] ]} |}.

(** A stand-in for Pearson's coefficient in the examples: 1 for equal rows,
    1/2 otherwise. *)
Definition example_pearson (x y : list Qc) : Qc :=
  if decide (x = y) then 1 else Q2Qc 0.5.

(** What freshly allocated memory holds in the examples. *)
Definition example_heap (i : nat) : Qc := Qc_of_nat (7 * i + 3).

(** A matrix source that ignores the view it is given and hands out the
    whole expression matrix of [two_groups]. *)
Definition whole_matrix (tmp : AnnData) (use_raw : option bool)
    (layer : option string) : res mtx :=
  Ok (X two_groups).

(** A dataset without cells. *)
Definition no_cells : AnnData :=
  {| obs_names := [];
     X := Dense 3 [];
     raw := None;
     layers := ∅;
     obsm := ∅;
     obs := {[ "patient" := [] ]} |}.

(** [two_groups] with its cells in another order and the CNV representation
    stored as a dense matrix. *)
Definition two_groups_reordered : AnnData :=
  {| obs_names := ["cell3"; "cell1"; "cell0"; "cell2"];
     X := Dense 3 [[Q2Qc 5.0; Q2Qc 1.0; Q2Qc 2.0]; [Q2Qc 2.0; Q2Qc 1.0; Q2Qc 0.5];
                   [Q2Qc 1.0; Q2Qc 2.0; Q2Qc 4.0]; [Q2Qc 0.0; Q2Qc 1.0; Q2Qc 3.0]];
     raw := None;
     layers := ∅;
     obsm := {[ "X_cnv" :=
                  Dense 3 [[Q2Qc 1.0; Q2Qc 0.0; Q2Qc 0.0];
                           [Q2Qc 0.0; Q2Qc 0.3; Q2Qc 0.0];
                           [Q2Qc 0.1; Q2Qc 0.0; Q2Qc (-0.2)];
                           [Q2Qc 0.0; Q2Qc 0.0; Q2Qc 0.0]] ]};
     obs := {[ "patient" := [VStr "P2"; VStr "P2"; VStr "P1"; VStr "P1"] ]} |}.

(** [two_groups] with another expression matrix, a [raw] matrix and one more
    annotation column; the grouping column and the CNV representation are
    those of [two_groups]. *)
Definition two_groups_other_X : AnnData :=
  {| obs_names := obs_names two_groups;
     X := Dense 0 [[]; []; []; []];
     raw := Some (X two_groups);
     layers := ∅;
     obsm := obsm two_groups;
     obs := <["batch" := [VStr "b"; VStr "b"; VStr "c"; VStr "c"]]>
              (obs two_groups) |}.

(** The cells of patient P1 of [two_groups], on their own. *)
Definition two_groups_P1 : AnnData :=
  {| obs_names := ["cell0"; "cell2"];
     X := Dense 3 [[Q2Qc 1.0; Q2Qc 2.0; Q2Qc 4.0]; [Q2Qc 0.0; Q2Qc 1.0; Q2Qc 3.0]];
     raw := None;
     layers := ∅;
     obsm := {[ "X_cnv" :=
                  Sparse 3 [[(0%nat, Q2Qc 0.1); (2%nat, Q2Qc (-0.2))]; []] ]};
     obs := {[ "patient" := [VStr "P1"; VStr "P1"] ]} |}.


(** ** What a call reads and writes *)

(** [same_but_column adata adata' key]: [adata'] is [adata] except, at most,
    for the column [key] of [adata.obs]. *)
Definition same_but_column (adata adata' : AnnData) (key : string) : Prop :=
  obs_names adata' = obs_names adata
  ∧ X adata' = X adata
  ∧ raw adata' = raw adata
  ∧ layers adata' = layers adata
  ∧ obsm adata' = obsm adata
  ∧ ∀ k, k ≠ key → obs adata' !! k = obs adata !! k.

(** [writes_at_most adata key inplace o]: the outcome [o] of a call on [adata]
    left everything but the column [key] as it was; an exception or a
    returned mapping left the whole dataset as it was, and [None] is returned
    only with [inplace] set, the column [key] then holding numbers. *)
Definition writes_at_most {A} (adata : AnnData) (key : string) (inplace : bool)
    (o : outcome (option A)) : Prop :=
  same_but_column adata (after o) key
  ∧ match result o with
    | Raise _ => after o = adata
    | Ok (Some _) => inplace = false ∧ after o = adata
    | Ok None =>
        inplace = true ∧ ∃ arr, obs (after o) !! key = Some (VNum <$> arr)
    end.

(** [same_effect adata adata' key o o']: the outcomes [o] from [adata] and
    [o'] from [adata'] carry the same result, and either leave their dataset
    as it was or write the same array to the column [key]. *)
Definition same_effect {A} (adata adata' : AnnData) (key : string)
    (o o' : outcome (option A)) : Prop :=
  (∃ r, o = mk_outcome r adata [] ∧ o' = mk_outcome r adata' [])
  ∨ (∃ arr, o = mk_outcome (Ok None) (set_obs adata key arr) []
          ∧ o' = mk_outcome (Ok None) (set_obs adata' key arr) []).



(** The cells of a dataset as the scores see them: the label of each cell
    with its row of the representation, as a dense vector. *)
Definition cells (labels : list obsval) (m : mtx) : list (obsval * list Qc) :=
  zip labels (dense_rows m).

(** ** Rounding

    numpy computes in binary64; these two definitions redo the mean of
    absolute values in that arithmetic, summing from left to right, to state
    what the idealisation by rationals leaves out. *)

Definition binary64_of_nat (n : nat) : float :=
  Nat.iter n (λ x, PrimFloat.add x 1%float) 0%float.

Definition binary64_mean_abs (l : list float) : float :=
  PrimFloat.div (foldl PrimFloat.add 0%float (PrimFloat.abs <$> l))
    (binary64_of_nat (length l)).

(** * Properties *)

(** Closed facts about the examples are settled by evaluation. *)
Ltac by_evaluation := apply (bool_decide_unpack _); vm_compute; exact I.

Lemma wf_two_groups : wf_adata two_groups.
Proof. by_evaluation. Defined.

Lemma wf_with_singleton : wf_adata with_singleton.
Proof. by_evaluation. Defined.

(** ** Masks, distinct values *)

Section lists.
Context {A B : Type}.
Implicit Types (mask : list bool) (l : list A) (k : list B).

Lemma length_select mask l k :
  length l = length k → length (select mask l) = length (select mask k).
Proof.
  revert l k. induction mask as [|b mask IH]; intros [|x l] [|y k] Hlen;
    simplify_eq/=; try done.
  destruct b; simpl; auto.
Qed.

Lemma Forall_select (P : A → Prop) mask l :
  Forall P l → Forall P (select mask l).
Proof.
  intros Hl. revert mask. induction Hl as [|x l Hx Hl IH]; intros [|b mask];
    simpl; try done.
  destruct b; auto.
Qed.

Lemma select_fmap (f : A → B) mask l :
  select mask (f <$> l) = f <$> select mask l.
Proof.
  revert l. induction mask as [|b mask IH]; intros [|x l]; simpl; try done.
  destruct b; simpl; by rewrite IH.
Qed.
End lists.

Lemma elem_of_unique v col : v ∈ unique col ↔ v ∈ col.
Proof.
  induction col as [|w col IH]; simpl; [done|].
  rewrite !elem_of_cons, list_elem_of_filter, IH.
  destruct (decide (v = w)); tauto.
Qed.

Lemma NoDup_unique col : NoDup (unique col).
Proof.
  induction col as [|w col IH]; simpl; [constructor|].
  constructor; [|by apply NoDup_filter].
  rewrite list_elem_of_filter. tauto.
Qed.

(** The cells of a group: the positions of the column that hold its label. *)
Lemma select_series_eq_self col v : select (series_eq col v) col = filter (λ w, w = v) col.
Proof.
  induction col as [|w col IH]; simpl; [done|].
  rewrite filter_cons. unfold series_eq in *. simpl.
  case_bool_decide; case_decide; try done; by rewrite IH.
Qed.

(** ** Well-formedness is kept by row selection *)

Lemma shape0_getitem_rows m mask (names : list string) :
  shape0 m = length names →
  shape0 (mtx_getitem_rows m mask) = length (select mask names).
Proof. destruct m; simpl; intros; by apply length_select. Qed.

Lemma wf_mtx_getitem_rows m mask : wf_mtx m → wf_mtx (mtx_getitem_rows m mask).
Proof. destruct m; simpl; apply Forall_select. Qed.

Lemma aligned_getitem_rows m mask (names : list string) :
  aligned (length names) m →
  aligned (length (select mask names)) (mtx_getitem_rows m mask).
Proof.
  intros [Hwf Hn]. split; [by apply wf_mtx_getitem_rows|].
  by apply shape0_getitem_rows.
Qed.

Lemma wf_adata_getitem adata mask : wf_adata adata → wf_adata (adata_getitem adata mask).
Proof.
  unfold wf_adata, n_obs. intros (HX & Hraw & Hlayers & Hobsm & Hobs). simpl.
  split_and!.
  - by apply aligned_getitem_rows.
  - destruct (raw adata); simpl in *; [by apply aligned_getitem_rows|done].
  - intros k m. rewrite lookup_fmap, fmap_Some. intros (m' & Hm' & ->).
    apply aligned_getitem_rows. by eapply Hlayers.
  - intros k m. rewrite lookup_fmap, fmap_Some. intros (m' & Hm' & ->).
    apply aligned_getitem_rows. by eapply Hobsm.
  - intros k col. rewrite lookup_fmap, fmap_Some. intros (col' & Hcol' & ->).
    apply length_select. by eapply Hobs.
Qed.

(** ** Running computations *)

Section run.
Context {A B : Type}.
Implicit Types (m : M A) (f : A → M B) (adata : AnnData).

Lemma bind_returns m f adata x : returns m adata x → (m ≫= f) adata = f x adata.
Proof.
  unfold returns, mbind, M_bind. intros ->. simpl. by destruct (f x adata).
Qed.

Lemma bind_raises m f adata e : raises m adata e → raises (m ≫= f) adata e.
Proof. unfold raises, mbind, M_bind. by intros ->. Qed.

Lemma returns_ret adata (x : A) : returns (mret x) adata x.
Proof. done. Qed.

Lemma returns_gets (g : AnnData → A) adata : returns (gets g) adata (g adata).
Proof. done. Qed.

Lemma returns_lift adata (x : A) : returns (lift (Ok x)) adata x.
Proof. done. Qed.

Lemma raises_lift adata e : raises (lift (A := A) (Raise e)) adata e.
Proof. done. Qed.

Lemma raises_raise adata e : raises (raise (A := A) e) adata e.
Proof. done. Qed.

Lemma returns_fmap (g : A → B) m adata x :
  returns m adata x → returns (g <$> m) adata (g x).
Proof.
  intros Hm. unfold returns, fmap, M_fmap. by rewrite (bind_returns _ _ _ _ Hm).
Qed.

Lemma raises_fmap (g : A → B) m adata e :
  raises m adata e → raises (g <$> m) adata e.
Proof. intros Hm. unfold fmap, M_fmap. by apply bind_raises. Qed.
End run.

Lemma returns_getitem {V} (d : gmap string V) key v adata :
  d !! key = Some v → returns (lift (getitem d key)) adata v.
Proof. unfold returns, lift, getitem. by intros ->. Qed.

Lemma raises_getitem {V} (d : gmap string V) key adata :
  d !! key = None → raises (lift (getitem d key)) adata (KeyError (VStr key)).
Proof. unfold raises, lift, getitem. by intros ->. Qed.

Lemma returns_obs_getitem key adata col :
  obs adata !! key = Some col → returns (obs_getitem key) adata col.
Proof. apply returns_getitem. Qed.

Lemma raises_obs_getitem key adata :
  obs adata !! key = None → raises (obs_getitem key) adata (KeyError (VStr key)).
Proof. apply raises_getitem. Qed.

Lemma returns_obsm_getitem key adata m :
  obsm adata !! key = Some m → returns (obsm_getitem key) adata m.
Proof. apply returns_getitem. Qed.

Lemma raises_obsm_getitem key adata :
  obsm adata !! key = None → raises (obsm_getitem key) adata (KeyError (VStr key)).
Proof. apply raises_getitem. Qed.

Lemma returns_dict_getitem (d : gmap obsval Qc) key v adata :
  d !! key = Some v → returns (dict_getitem d key) adata v.
Proof. unfold dict_getitem. by intros ->. Qed.

Lemma raises_dict_getitem (d : gmap obsval Qc) key adata :
  d !! key = None → raises (dict_getitem d key) adata (KeyError key).
Proof. unfold dict_getitem. by intros ->. Qed.

(** A loop whose body returns at every element is a fold. *)
Lemma for_each_returns {A S} (xs : list A) (body : A → S → M S)
    (step : A → S → S) acc adata :
  (∀ x acc, x ∈ xs → returns (body x acc) adata (step x acc)) →
  returns (for_each xs body acc) adata (foldl (flip step) acc xs).
Proof.
  revert acc. induction xs as [|x xs IH]; intros acc Hbody; [done|].
  simpl. unfold returns. rewrite (bind_returns _ _ _ (step x acc)).
  - apply IH. intros y acc' Hy. apply Hbody. by right.
  - apply Hbody. by left.
Qed.

(** A loop raises at the first element whose body raises, when the body
    returns at the elements before. *)
Lemma for_each_raises {A S} (xs ys : list A) (x : A) (body : A → S → M S)
    (step : A → S → S) acc adata e :
  (∀ y acc, y ∈ xs → returns (body y acc) adata (step y acc)) →
  (∀ acc, raises (body x acc) adata e) →
  raises (for_each (xs ++ x :: ys) body acc) adata e.
Proof.
  revert acc. induction xs as [|y xs IH]; intros acc Hbody Hx; simpl.
  - by apply bind_raises.
  - unfold raises. rewrite (bind_returns _ _ _ (step y acc)).
    + apply IH; [|done]. intros z acc' Hz. apply Hbody. by right.
    + apply Hbody. by left.
Qed.

Lemma list_comp_returns {A B} (f : A → M B) (g : A → B) xs adata :
  (∀ x, x ∈ xs → returns (f x) adata (g x)) →
  returns (list_comp f xs) adata (g <$> xs).
Proof.
  induction xs as [|x xs IH]; intros Hf; [done|].
  simpl. unfold returns. rewrite (bind_returns _ _ _ (g x)) by (apply Hf; by left).
  rewrite (bind_returns _ _ _ (g <$> xs)); [done|].
  apply IH. intros y Hy. apply Hf. by right.
Qed.

Create HintDb run.
#[global] Hint Resolve returns_ret returns_gets returns_lift returns_fmap
  returns_obs_getitem returns_obsm_getitem returns_dict_getitem returns_getitem : run.
#[global] Hint Resolve raises_lift raises_raise raises_fmap raises_obs_getitem
  raises_obsm_getitem raises_dict_getitem raises_getitem bind_raises : run.

Ltac run := repeat (erewrite bind_returns by eauto with run).

(** ** Postconditions *)

Section post.
Context {A B : Type}.
Implicit Types (m : M A) (f : A → M B) (adata : AnnData).

Lemma post_mono m adata (Q Q' : res A → AnnData → Prop) :
  post m adata Q → (∀ r a, Q r a → Q' r a) → post m adata Q'.
Proof. unfold post. auto. Qed.

Lemma post_bind m f adata (Q : res B → AnnData → Prop) :
  post m adata (λ r a,
    match r with
    | Ok x => post (f x) a Q
    | Raise e => Q (Raise e) a
    end) →
  post (m ≫= f) adata Q.
Proof. unfold post, mbind, M_bind. by destruct (result (m adata)). Qed.

Lemma post_ret adata (x : A) (Q : res A → AnnData → Prop) :
  Q (Ok x) adata → post (mret x) adata Q.
Proof. done. Qed.

Lemma post_raise adata e (Q : res A → AnnData → Prop) :
  Q (Raise e) adata → post (raise e) adata Q.
Proof. done. Qed.

Lemma post_lift adata (r : res A) (Q : res A → AnnData → Prop) :
  Q r adata → post (lift r) adata Q.
Proof. done. Qed.

Lemma post_gets adata (g : AnnData → A) (Q : res A → AnnData → Prop) :
  Q (Ok (g adata)) adata → post (gets g) adata Q.
Proof. done. Qed.

Lemma post_fmap (g : A → B) m adata (Q : res B → AnnData → Prop) :
  post m adata (λ r a,
    match r with
    | Ok x => Q (Ok (g x)) a
    | Raise e => Q (Raise e) a
    end) →
  post (g <$> m) adata Q.
Proof.
  intros Hm. unfold fmap, M_fmap. apply post_bind.
  eapply post_mono; [exact Hm|]. by intros [x|e] a.
Qed.
End post.

(** The loop rule: [I] holds of the accumulator and the dataset around every
    iteration; an exception leaves through [E]. *)
Lemma post_for_each {A S} (xs : list A) (body : A → S → M S)
    (I : S → AnnData → Prop) (E : exn → AnnData → Prop) acc adata :
  I acc adata →
  (∀ x acc a, x ∈ xs → I acc a →
     post (body x acc) a (λ r a',
       match r with Ok acc' => I acc' a' | Raise e => E e a' end)) →
  post (for_each xs body acc) adata (λ r a',
    match r with Ok acc' => I acc' a' | Raise e => E e a' end).
Proof.
  revert acc adata. induction xs as [|x xs IH]; intros acc adata HI Hbody.
  - by apply post_ret.
  - simpl. apply post_bind. eapply post_mono.
    + apply Hbody; [by left|done].
    + intros [acc'|e] a' H; [|done]. apply IH; [done|].
      intros y acc'' a'' Hy. apply Hbody. by right.
Qed.

Lemma post_list_comp {A B} (f : A → M B) xs
    (I : AnnData → Prop) (E : exn → AnnData → Prop) adata :
  I adata →
  (∀ x a, x ∈ xs → I a →
     post (f x) a (λ r a', match r with Ok _ => I a' | Raise e => E e a' end)) →
  post (list_comp f xs) adata (λ r a',
    match r with Ok _ => I a' | Raise e => E e a' end).
Proof.
  revert adata. induction xs as [|x xs IH]; intros adata HI Hf.
  - by apply post_ret.
  - simpl. apply post_bind. eapply post_mono; [apply Hf; [by left|done]|].
    intros [y|e] a' H; [|done]. apply post_bind.
    eapply post_mono; [apply IH; [done|]|].
    + intros z a'' Hz. apply Hf. by right.
    + intros [ys|e] a'' H'; [|done]. by apply post_ret.
Qed.

Lemma post_obs_getitem key adata (Q : res (list obsval) → AnnData → Prop) :
  Q (getitem (obs adata) key) adata → post (obs_getitem key) adata Q.
Proof. done. Qed.

Lemma post_obsm_getitem key adata (Q : res mtx → AnnData → Prop) :
  Q (getitem (obsm adata) key) adata → post (obsm_getitem key) adata Q.
Proof. done. Qed.

Lemma post_dict_getitem d key adata (Q : res Qc → AnnData → Prop) :
  (∀ v, d !! key = Some v → Q (Ok v) adata) →
  (d !! key = None → Q (Raise (KeyError key)) adata) →
  post (dict_getitem d key) adata Q.
Proof. unfold dict_getitem. destruct (d !! key); intros H1 H2; [by apply H1|by apply H2]. Qed.

Lemma post_warn w adata (Q : res () → AnnData → Prop) :
  Q (Ok ()) adata → post (warn w) adata Q.
Proof. done. Qed.

(** ** Computations that only read the dataset *)

Create HintDb readonly.

Lemma readonly_after {A} (m : M A) adata : readonly m → after (m adata) = adata.
Proof. intros Hm. destruct (Hm adata) as [r ->]. done. Qed.

Lemma readonly_outcome {A} (m : M A) adata :
  readonly m → m adata = mk_outcome (result (m adata)) adata [].
Proof. intros Hm. destruct (Hm adata) as [r ->]. done. Qed.

Lemma readonly_ret {A} (x : A) : readonly (mret x).
Proof. intros adata. by eexists. Qed.

Lemma readonly_raise {A} e : readonly (raise (A := A) e).
Proof. intros adata. by eexists. Qed.

Lemma readonly_lift {A} (r : res A) : readonly (lift r).
Proof. intros adata. by eexists. Qed.

Lemma readonly_gets {A} (g : AnnData → A) : readonly (gets g).
Proof. intros adata. by eexists. Qed.

Lemma readonly_obs_getitem key : readonly (obs_getitem key).
Proof. intros adata. by eexists. Qed.

Lemma readonly_obsm_getitem key : readonly (obsm_getitem key).
Proof. intros adata. by eexists. Qed.

Lemma readonly_obs_contains key : readonly (obs_contains key).
Proof. intros adata. by eexists. Qed.

Lemma readonly_dict_getitem d key : readonly (dict_getitem d key).
Proof. intros adata. unfold dict_getitem. destruct (d !! key); by eexists. Qed.

Lemma readonly_bind {A B} (m : M A) (f : A → M B) :
  readonly m → (∀ x, readonly (f x)) → readonly (m ≫= f).
Proof.
  intros Hm Hf adata. destruct (Hm adata) as [[x|e] Hx].
  - destruct (Hf x adata) as [r Hr]. exists r.
    by rewrite (bind_returns _ _ _ x Hx).
  - exists (Raise e). by apply bind_raises.
Qed.

Lemma readonly_fmap {A B} (g : A → B) (m : M A) : readonly m → readonly (g <$> m).
Proof. intros Hm. apply readonly_bind; [done|]. intros x. apply readonly_ret. Qed.

Lemma readonly_for_each {A S} (xs : list A) (body : A → S → M S) acc :
  (∀ x acc, readonly (body x acc)) → readonly (for_each xs body acc).
Proof.
  intros Hbody. revert acc. induction xs as [|x xs IH]; intros acc; simpl.
  - apply readonly_ret.
  - by apply readonly_bind.
Qed.

Lemma readonly_list_comp {A B} (f : A → M B) xs :
  (∀ x, readonly (f x)) → readonly (list_comp f xs).
Proof.
  intros Hf. induction xs as [|x xs IH]; simpl.
  - apply readonly_ret.
  - apply readonly_bind; [done|]. intros y.
    apply readonly_bind; [done|]. intros ys. apply readonly_ret.
Qed.

Lemma readonly_if {A} (b : bool) (m1 m2 : M A) :
  readonly m1 → readonly m2 → readonly (if b then m1 else m2).
Proof. by destruct b. Qed.

#[global] Hint Resolve readonly_ret readonly_raise readonly_lift readonly_gets
  readonly_obs_getitem readonly_obsm_getitem readonly_obs_contains
  readonly_dict_getitem readonly_fmap readonly_list_comp readonly_if : readonly.

Ltac readonly :=
  repeat first
    [ progress eauto with readonly
    | apply readonly_bind; [|intros ?]
    | apply readonly_for_each; intros ? ?
    | match goal with
      | |- readonly (match ?o with _ => _ end) => destruct o
      | |- readonly (if ?b then _ else _) => destruct b
      end ].

(** With [inplace=False] the three functions only read the dataset;
    [cnv_score] warns when it is given [obs_key]. *)
Lemma cnv_score_readonly groupby use_rep key_added :
  readonly (cnv_score groupby use_rep key_added false None).
Proof. unfold cnv_score. readonly. Qed.

Lemma ithgex_readonly chooser pearson heap groupby use_raw layer key_added :
  readonly (ithgex chooser pearson heap groupby use_raw layer false key_added).
Proof. unfold ithgex. readonly. Qed.

Lemma ithcna_readonly pearson heap groupby use_rep key_added :
  readonly (ithcna pearson heap groupby use_rep key_added false).
Proof. unfold ithcna. readonly. Qed.

Lemma cnv_score_obs_key groupby use_rep key_added inplace g adata :
  cnv_score groupby use_rep key_added inplace (Some g) adata
  = let o := cnv_score g use_rep key_added inplace None adata in
    mk_outcome (result o) (after o) (obs_key_deprecated :: warned o).
Proof. unfold cnv_score, mbind, M_bind. simpl. by destruct (result _). Qed.

Lemma cnv_score_default_groupby groupby use_rep key_added inplace obs_key adata :
  let o := cnv_score groupby use_rep key_added inplace obs_key adata in
  let o' := cnv_score (default groupby obs_key) use_rep key_added inplace None
              adata in
  result o = result o' ∧ after o = after o'.
Proof. intros o o'. unfold o. destruct obs_key as [g|]; [|done]. by rewrite cnv_score_obs_key. Qed.

(** ** What a computation can return *)

Lemma yields_ret {A} (P : A → Prop) x : P x → yields P (mret x).
Proof. intros HP adata y [= <-]. done. Qed.

Lemma yields_raise {A} (P : A → Prop) e : yields P (raise e).
Proof. intros adata y. discriminate. Qed.

Lemma yields_bind {A B} (P : B → Prop) (m : M A) (f : A → M B) :
  (∀ x, yields P (f x)) → yields P (m ≫= f).
Proof.
  intros Hf adata y. unfold mbind, M_bind.
  destruct (result (m adata)) as [x|e]; simpl; [apply Hf|discriminate].
Qed.

Ltac yields :=
  repeat first
    [ apply yields_raise
    | apply yields_ret
    | apply yields_bind; intros ?
    | match goal with
      | |- yields _ (if ?b then _ else _) => destruct b
      end ].

Lemma cnv_score_yields_mapping groupby use_rep key_added obs_key :
  yields is_Some (cnv_score groupby use_rep key_added false obs_key).
Proof. unfold cnv_score. yields. done. Qed.

Lemma ithgex_yields_mapping chooser pearson heap groupby use_raw layer key_added :
  yields is_Some (ithgex chooser pearson heap groupby use_raw layer false key_added).
Proof. unfold ithgex. yields. done. Qed.

Lemma ithcna_yields_mapping pearson heap groupby use_rep key_added :
  yields is_Some (ithcna pearson heap groupby use_rep key_added false).
Proof. unfold ithcna. yields. done. Qed.

(** ** Returning the mapping leaves the dataset alone *)

(** C7. With [inplace=False] each of [cnv_score], [ithgex] and [ithcna]
    leaves the dataset as it found it and, when it returns, returns a
    mapping; a second call on the dataset the first call left therefore has
    the same result as the first. *)
Theorem inplace_false_idempotent chooser pearson heap groupby use_rep key_added
    obs_key use_raw layer adata :
  let f1 := cnv_score groupby use_rep key_added false obs_key in
  let f2 := ithgex chooser pearson heap groupby use_raw layer false key_added in
  let f3 := ithcna pearson heap groupby use_rep key_added false in
  (after (f1 adata) = adata
   ∧ (∀ r, result (f1 adata) = Ok r → is_Some r)
   ∧ result (f1 (after (f1 adata))) = result (f1 adata))
  ∧ (after (f2 adata) = adata
     ∧ (∀ r, result (f2 adata) = Ok r → is_Some r)
     ∧ result (f2 (after (f2 adata))) = result (f2 adata))
  ∧ (after (f3 adata) = adata
     ∧ (∀ r, result (f3 adata) = Ok r → is_Some r)
     ∧ result (f3 (after (f3 adata))) = result (f3 adata)).
Proof.
  intros f1 f2 f3.
  assert (after (f1 adata) = adata) as H1.
  { unfold f1. rewrite (proj2 (cnv_score_default_groupby _ _ _ _ _ _)).
    apply readonly_after, cnv_score_readonly. }
  assert (after (f2 adata) = adata) as H2
    by apply readonly_after, ithgex_readonly.
  assert (after (f3 adata) = adata) as H3
    by apply readonly_after, ithcna_readonly.
  split_and!; try done.
  - apply cnv_score_yields_mapping.
  - by rewrite H1.
  - apply ithgex_yields_mapping.
  - by rewrite H2.
  - apply ithcna_yields_mapping.
  - by rewrite H3.
Qed.

(** ** The configuration error of [cnv_score] *)

Lemma only_KeyError_getitem {V} (d : gmap string V) key adata :
  only_KeyError (getitem d key) adata.
Proof. unfold getitem. by destruct (d !! key). Qed.

(** When the grouping column is [cnv_leiden] and absent, the error is raised
    at once: nothing else of the dataset or of the arguments is looked at. *)
Lemma cnv_score_raises_cnv_leiden adata groupby use_rep key_added inplace obs_key :
  default groupby obs_key = "cnv_leiden" →
  obs adata !! "cnv_leiden" = None →
  cnv_score groupby use_rep key_added inplace obs_key adata
  = mk_outcome (Raise cnv_leiden_not_found) adata (obs_key_warnings obs_key).
Proof.
  intros Hg Hobs. unfold cnv_score.
  destruct obs_key as [k|]; simpl in Hg; subst; unfold mbind, M_bind; simpl;
    by rewrite Hobs.
Qed.

(** Every other exception of [cnv_score] is a failed lookup. *)
Lemma cnv_score_other_errors adata groupby use_rep key_added inplace obs_key :
  post (cnv_score groupby use_rep key_added inplace obs_key) adata (λ r _,
    match r with
    | Raise e =>
        is_KeyError e
        ∨ (default groupby obs_key = "cnv_leiden"
           ∧ obs adata !! "cnv_leiden" = None)
    | Ok _ => True
    end).
Proof.
  unfold cnv_score. apply post_bind.
  eapply (post_mono _ _ (λ r a, a = adata ∧ r = Ok (default groupby obs_key))).
  { destruct obs_key; [apply post_bind, post_warn, post_ret|apply post_ret]; done. }
  intros r a [-> ->]. set (g := default groupby obs_key).
  apply post_bind, post_gets.
  destruct (obs adata !! g) as [labels|] eqn:Hg; simpl.
  2:{ case_bool_decide as Hd; simpl.
      - apply post_raise. right. by rewrite <-Hd.
      - apply post_bind, post_fmap, post_obs_getitem.
        unfold getitem. rewrite Hg. by left. }
  apply post_bind, post_fmap, post_obs_getitem. unfold getitem. rewrite Hg.
  apply post_bind. eapply post_mono.
  { apply (post_for_each _ _ (λ _ _, True) (λ e _, is_KeyError e)); [done|].
    intros cluster d a _ _. apply post_bind, post_obsm_getitem.
    pose proof (only_KeyError_getitem (obsm a) ("X_" +:+ use_rep) a) as H.
    destruct (getitem _ _); [|done].
    apply post_bind, post_obs_getitem.
    pose proof (only_KeyError_getitem (obs a) g a) as H'.
    destruct (getitem _ _); [|done]. by apply post_ret. }
  intros [d|e] a; simpl; [intros _|by left].
  destruct inplace; [|by apply post_ret].
  apply post_bind, post_obs_getitem.
  pose proof (only_KeyError_getitem (obs a) g a) as H'.
  destruct (getitem _ _) as [labels'|]; [|by left].
  apply post_bind. eapply post_mono.
  { apply (post_list_comp _ _ (λ _, True) (λ e _, is_KeyError e)); [done|].
    intros c a' _ _. apply post_dict_getitem; done. }
  intros [arr|e] a'; simpl; [intros _|by left].
  done.
Qed.

(** C4. [cnv_score] raises a [ValueError] exactly when the grouping column
    in force (the [groupby] argument, or [obs_key] when given) is named
    [cnv_leiden] and [adata.obs] has no such column.  The exception is then
    the one that tells to run [tl.leiden], the dataset is left as it was,
    and the outcome depends neither on the representation nor on [inplace]
    or [key_added]: no score has been computed. *)
Theorem cnv_score_configuration_error adata groupby use_rep key_added inplace
    obs_key :
  let g := default groupby obs_key in
  let o := cnv_score groupby use_rep key_added inplace obs_key adata in
  ((∃ msg, result o = Raise (ValueError msg))
   ↔ g = "cnv_leiden" ∧ obs adata !! g = None)
  ∧ (g = "cnv_leiden" ∧ obs adata !! g = None →
     o = mk_outcome (Raise cnv_leiden_not_found) adata
           (obs_key_warnings obs_key)).
Proof.
  intros g o.
  assert (g = "cnv_leiden" ∧ obs adata !! g = None →
          o = mk_outcome (Raise cnv_leiden_not_found) adata
                (obs_key_warnings obs_key)) as Hraise.
  { intros [Hg Hobs]. rewrite Hg in Hobs.
    by apply cnv_score_raises_cnv_leiden. }
  split; [|done]. split.
  - intros [msg Hmsg].
    pose proof (cnv_score_other_errors adata groupby use_rep key_added inplace
                  obs_key) as Hpost.
    unfold post in Hpost. fold o in Hpost. rewrite Hmsg in Hpost.
    destruct Hpost as [[]|[Hg Hobs]]. split; [done|]. fold g in Hg. by rewrite Hg.
  - intros Hcond. rewrite (Hraise Hcond). by eexists.
Qed.

(** ** [cnv_score]: the mean of the absolute values of a group's rows *)

Lemma sum_Qc_app l1 l2 : sum_Qc (l1 ++ l2) = sum_Qc l1 + sum_Qc l2.
Proof.
  induction l1 as [|x l1 IH]; simpl.
  - by rewrite Qcplus_0_l.
  - rewrite IH. apply Qcplus_assoc.
Qed.

Lemma Qcabs_0 : Qcabs 0 = 0.
Proof. done. Qed.

Lemma sum_Qc_single (l : list nat) j0 a (f : nat → Qc) :
  NoDup l → j0 ∈ l → f j0 = 0 →
  sum_Qc ((λ j, if decide (j0 = j) then a else f j) <$> l) = a + sum_Qc (f <$> l).
Proof.
  intros Hnd Hin Hf. induction Hnd as [|j l Hj Hnd IH]; [by apply elem_of_nil in Hin|].
  csimpl. apply elem_of_cons in Hin as [<-|Hin].
  - rewrite decide_True by done. rewrite Hf, Qcplus_0_l. f_equal. f_equal.
    apply list_fmap_ext. intros i j Hij. rewrite decide_False; [done|].
    intros <-. apply Hj. by eapply list_elem_of_lookup_2.
  - rewrite decide_False by (intros <-; done). rewrite IH by done. ring.
Qed.

Lemma sparse_entry_cons j0 v0 r j :
  sparse_entry ((j0, v0) :: r) j
  = if decide (j0 = j) then v0 + sparse_entry r j else sparse_entry r j.
Proof. unfold sparse_entry. rewrite filter_cons. simpl. by case_decide. Qed.

Lemma sparse_entry_absent r j : j ∉ r.*1 → sparse_entry r j = 0.
Proof.
  unfold sparse_entry. induction r as [|[i v] r IH]; intros Hj; [done|].
  rewrite fmap_cons, not_elem_of_cons in Hj. destruct Hj as [Hij Hj].
  rewrite filter_cons_False by (simpl; intros ->; by apply Hij). by apply IH.
Qed.

Lemma sum_abs_dense_row c r :
  NoDup r.*1 → Forall (λ e, e.1 < c)%nat r →
  sum_Qc (Qcabs <$> dense_row c r) = sum_Qc ((prod_map id Qcabs <$> r).*2).
Proof.
  unfold dense_row. rewrite <-list_fmap_compose.
  induction r as [|[j0 v0] r IH]; intros Hnd Hlt.
  - induction (seq 0 c) as [|j l IH]; [done|].
    rewrite fmap_cons. unfold sum_Qc in *. simpl foldr. rewrite IH. done.
  - apply NoDup_cons in Hnd as [Hj0 Hnd]. apply Forall_cons in Hlt as [Hj0c Hlt].
    rewrite !fmap_cons. simpl in Hj0c. cbn [prod_map snd fst id sum_Qc foldr].
    fold (sum_Qc (prod_map id Qcabs <$> r).*2). rewrite <-IH by done.
    rewrite <-(sum_Qc_single (seq 0 c) j0 (Qcabs v0)).
    + f_equal. apply list_fmap_ext. intros i j Hij. simpl.
      rewrite sparse_entry_cons. case_decide; [|done]. subst.
      by rewrite sparse_entry_absent, Qcplus_0_r.
    + apply NoDup_seq.
    + apply elem_of_seq. lia.
    + simpl. by rewrite sparse_entry_absent.
Qed.

Lemma length_dense_row c r : length (dense_row c r) = c.
Proof. unfold dense_row. by rewrite length_fmap, length_seq. Qed.

Lemma np_mean_abs m : wf_mtx m → np_mean (np_abs m) = mean_abs (dense_rows m).
Proof.
  destruct m as [c rows|c rows]; simpl; unfold mean_abs; intros Hwf.
  - rewrite <-concat_map. by rewrite length_map.
  - f_equal.
    + induction Hwf as [|r rows [Hnd Hlt] Hwf IH]; [done|].
      simpl. rewrite !fmap_app, !sum_Qc_app, IH. f_equal.
      by rewrite sum_abs_dense_row.
    + f_equal. rewrite length_map. clear Hwf.
      induction rows as [|r rows IH]; [done|].
      simpl. rewrite length_app, length_dense_row, IH. done.
Qed.

Lemma dense_rows_getitem_rows m mask :
  dense_rows (mtx_getitem_rows m mask) = select mask (dense_rows m).
Proof. destruct m; simpl; [done|]. by rewrite select_fmap. Qed.

Lemma lookup_collect f xs d k :
  collect f xs d !! k
  = if decide (k ∈ xs) then from_option Some (d !! k) (f k) else d !! k.
Proof.
  unfold collect. revert d. induction xs as [|x xs IH]; intros d; simpl; [done|].
  rewrite IH. unfold store. destruct (decide (k = x)) as [->|Hne].
  - rewrite (decide_True (P := x ∈ x :: xs)) by left.
    destruct (f x) as [v|]; simpl; [rewrite lookup_insert_eq|]; by case_decide.
  - assert (d' : (match f x with Some v => <[x:=v]> d | None => d end) !! k = d !! k).
    { destruct (f x); [by rewrite lookup_insert_ne|done]. }
    rewrite d'. destruct (decide (k ∈ xs)).
    + by rewrite decide_True by by right.
    + rewrite decide_False; [done|]. rewrite not_elem_of_cons. done.
Qed.

Lemma cnv_score_run adata groupby use_rep key_added inplace labels rep :
  obs adata !! groupby = Some labels →
  obsm adata !! ("X_" +:+ use_rep) = Some rep →
  cnv_score groupby use_rep key_added inplace None adata
  = if inplace
    then mk_outcome (Ok None)
           (set_obs adata key_added (cnv_cluster_score labels rep <$> labels)) []
    else mk_outcome (Ok (Some (collect (Some ∘ cnv_cluster_score labels rep) (unique labels) ∅)))
           adata [].
Proof.
  intros Hobs Hobsm. unfold cnv_score. run.
  rewrite Hobs, bool_decide_eq_true_2 by done. cbn [negb andb]. run.
  erewrite bind_returns.
  2:{ apply (for_each_returns _ _ (store (Some ∘ cnv_cluster_score labels rep))).
      intros c d Hc. unfold returns. run. done. }
  fold (collect (Some ∘ cnv_cluster_score labels rep) (unique labels) ∅).
  destruct inplace; [|done]. run.
  erewrite bind_returns.
  2:{ apply (list_comp_returns _ (cnv_cluster_score labels rep)). intros c Hc.
      apply returns_dict_getitem. rewrite lookup_collect.
      rewrite decide_True by by apply elem_of_unique. done. }
  done.
Qed.

(** C1. For a dataset whose grouping column and CNV representation exist,
    [cnv_score] maps every distinct value of the grouping column to the mean
    of the absolute values of all entries of the representation's rows of
    that group (and maps nothing else); with [inplace=True] it writes, for
    every cell, the score of the cell's group.  On the scenario's dataset
    group A scores 0.175, group B scores 1.0 and the column written is
    0.175, 0.175, 1.0, 1.0. *)
Theorem cnv_score_mean_abs :
  (∀ adata groupby use_rep key_added obs_key labels rep,
     obs adata !! default groupby obs_key = Some labels →
     obsm adata !! ("X_" +:+ use_rep) = Some rep →
     wf_mtx rep →
     let score c := mean_abs (group_rows labels rep c) in
     (∃ d, result (cnv_score groupby use_rep key_added false obs_key adata)
           = Ok (Some d)
         ∧ ∀ cluster,
             d !! cluster
             = if decide (cluster ∈ labels) then Some (score cluster) else None)
     ∧ result (cnv_score groupby use_rep key_added true obs_key adata) = Ok None
     ∧ after (cnv_score groupby use_rep key_added true obs_key adata)
       = set_obs adata key_added (score <$> labels))
  ∧ result (cnv_score "cnv_leiden" "cnv" "cnv_score" false None scenario)
    = Ok (Some {[ VStr "A" := Q2Qc 0.175; VStr "B" := Q2Qc 1.0 ]})
  ∧ obs (after (cnv_score "cnv_leiden" "cnv" "cnv_score" true None scenario))
      !! "cnv_score"
    = Some [VNum (Q2Qc 0.175); VNum (Q2Qc 0.175); VNum (Q2Qc 1.0); VNum (Q2Qc 1.0)].
Proof.
  split; [|split; by_evaluation].
  intros adata groupby use_rep key_added obs_key labels rep Hobs Hobsm Hwf score.
  assert (∀ c, cnv_cluster_score labels rep c = score c) as Hscore.
  { intros c. unfold cnv_cluster_score, score, group_rows.
    rewrite np_mean_abs by by apply wf_mtx_getitem_rows.
    by rewrite dense_rows_getitem_rows. }
  assert (∀ inplace,
            result (cnv_score groupby use_rep key_added inplace obs_key adata)
            = result (cnv_score (default groupby obs_key) use_rep key_added inplace None adata)
            ∧ after (cnv_score groupby use_rep key_added inplace obs_key adata)
            = after (cnv_score (default groupby obs_key) use_rep key_added inplace None adata)) as Hkey.
  { intros inplace. destruct obs_key as [g|]; [|done]. by rewrite cnv_score_obs_key. }
  split_and!.
  - eexists. split.
    + rewrite (proj1 (Hkey false)).
      by rewrite (cnv_score_run _ _ _ _ _ _ _ Hobs Hobsm).
    + intros cluster. rewrite lookup_collect, lookup_empty.
      destruct (decide (cluster ∈ unique labels)) as [Hin|Hin];
        rewrite elem_of_unique in Hin.
      * rewrite decide_True by done. simpl. by rewrite Hscore.
      * by rewrite decide_False.
  - rewrite (proj1 (Hkey true)). by rewrite (cnv_score_run _ _ _ _ _ _ _ Hobs Hobsm).
  - rewrite (proj2 (Hkey true)). rewrite (cnv_score_run _ _ _ _ _ _ _ Hobs Hobsm).
    simpl. f_equal. apply list_fmap_ext. intros; apply Hscore.
Qed.

(** The general part of C1 on the scenario's dataset: group A lies in the
    mapping with the mean of the absolute values of its two rows, a label
    that is no group does not. *)
Lemma cnv_score_mean_abs_witness :
  ∃ d, result (cnv_score "cnv_leiden" "cnv" "cnv_score" false None scenario)
       = Ok (Some d)
     ∧ d !! VStr "A"
       = Some (mean_abs [[Q2Qc 0.1; Q2Qc (-0.2)]; [Q2Qc 0.3; Q2Qc (-0.1)]])
     ∧ d !! VStr "C" = None.
Proof.
  destruct (proj1 cnv_score_mean_abs scenario "cnv_leiden" "cnv" "cnv_score" None
              [VStr "A"; VStr "A"; VStr "B"; VStr "B"]
              (Dense 2 [[Q2Qc 0.1; Q2Qc (-0.2)]; [Q2Qc 0.3; Q2Qc (-0.1)];
                        [Q2Qc 1.0; Q2Qc 1.0]; [Q2Qc 1.0; Q2Qc 1.0]]))
    as ((d & Hd & Hlookup) & _).
  - reflexivity.
  - reflexivity.
  - by_evaluation.
  - exists d. split; [exact Hd|]. split.
    + rewrite Hlookup. reflexivity.
    + rewrite Hlookup. reflexivity.
Defined.

(** ** The algorithm [ithgex] and [ithcna] share *)

Lemma ithgex_algorithm chooser pearson heap groupby use_raw layer inplace key_added :
  ithgex chooser pearson heap groupby use_raw layer inplace key_added
  = ith_algorithm (λ tmp, chooser tmp use_raw layer) ithgex_message pearson heap
      groupby inplace key_added.
Proof. reflexivity. Qed.

Lemma ithcna_algorithm pearson heap groupby use_rep key_added inplace :
  ithcna pearson heap groupby use_rep key_added inplace
  = ith_algorithm (λ tmp, getitem (obsm tmp) use_rep) ithcna_message pearson heap
      groupby inplace key_added.
Proof. reflexivity. Qed.

Section ith.
Context (source : AnnData → res mtx) (message : nat → list nat → string).
Context (pearson : list Qc → list Qc → Qc) (heap : nat → Qc).
Implicit Types (adata : AnnData) (labels : list obsval) (group : obsval).

Lemma shape0_densify X : shape0 (if issparse X then todense X else X) = shape0 X.
Proof. destruct X; simpl; [done|]. by rewrite length_fmap. Qed.

Lemma dense_rows_densify X :
  dense_rows (if issparse X then todense X else X) = dense_rows X.
Proof. by destruct X. Qed.

Lemma length_dense_rows X : length (dense_rows X) = shape0 X.
Proof. destruct X; simpl; [done|]. by rewrite length_fmap. Qed.

Lemma full_corr_concat rows :
  full_corr pearson rows = concat (map (λ ri, map (λ rj, pearson ri rj) rows) rows).
Proof.
  unfold full_corr.
  assert (∀ (g : list Qc → Qc) (l : list (list Qc)), (rj ← l; [g rj]) = map g l) as Hmap.
  { intros g l. induction l as [|r l IH]; csimpl; congruence. }
  assert (∀ (f : list Qc → list Qc) (l : list (list Qc)), l ≫= f = concat (map f l)) as Hbind.
  { intros f l. induction l as [|r l IH]; csimpl; congruence. }
  rewrite Hbind. f_equal; apply map_ext; intros ri; apply Hmap.
Qed.

Lemma np_corrcoef_full X :
  (2 ≤ shape0 X)%nat →
  np_corrcoef pearson X
  = mk_ndarray [shape0 X; shape0 X] (full_corr pearson (dense_rows X)).
Proof.
  intros Hn. unfold np_corrcoef. rewrite full_corr_concat, <-length_dense_rows.
  rewrite <-length_dense_rows in Hn.
  destruct (dense_rows X) as [|r [|r' rows]]; simpl in *; try lia; done.
Qed.

Lemma n_obs_group_view adata labels group :
  length labels = n_obs adata →
  n_obs (group_view adata labels group) = group_size labels group.
Proof.
  intros Hlen. unfold n_obs, group_view, group_size. simpl.
  rewrite <-select_series_eq_self. apply length_select. done.
Qed.

Lemma ith_group_returns adata groupby labels group X scores :
  obs adata !! groupby = Some labels →
  source (group_view adata labels group) = Ok X →
  (shape0 X ≤ 1 ∨ shape0 X = n_obs (group_view adata labels group))%nat →
  returns (ith_group source message pearson groupby group scores) adata
    (store (ith_score_of source pearson adata labels) group scores).
Proof.
  intros Hobs Hsrc Hshape. unfold returns, ith_group. run.
  fold (group_view adata labels group). rewrite Hsrc. run.
  unfold store, ith_score_of. rewrite Hsrc. unfold ith_score.
  rewrite shape0_densify. case_bool_decide as Hle; [done|].
  destruct Hshape as [?|Hshape]; [lia|].
  rewrite np_corrcoef_full by (rewrite shape0_densify; lia).
  rewrite shape0_densify, dense_rows_densify. simpl shape.
  rewrite bool_decide_eq_true_2 by (by rewrite Hshape). done.
Qed.

Lemma ith_group_assertion adata groupby labels group X scores :
  obs adata !! groupby = Some labels →
  source (group_view adata labels group) = Ok X →
  (2 ≤ shape0 X)%nat →
  shape0 X ≠ n_obs (group_view adata labels group) →
  raises (ith_group source message pearson groupby group scores) adata
    (AssertionError
       (message (n_obs (group_view adata labels group)) [shape0 X; shape0 X])).
Proof.
  intros Hobs Hsrc Hle Hshape. unfold raises, ith_group. run.
  fold (group_view adata labels group). rewrite Hsrc. run.
  rewrite shape0_densify. rewrite bool_decide_eq_false_2 by lia.
  rewrite np_corrcoef_full by (rewrite shape0_densify; lia).
  rewrite shape0_densify. simpl shape.
  rewrite bool_decide_eq_false_2; [done|]. intros [= ?]. done.
Qed.

Lemma ith_group_source_raises adata groupby labels group e scores :
  obs adata !! groupby = Some labels →
  source (group_view adata labels group) = Raise e →
  raises (ith_group source message pearson groupby group scores) adata e.
Proof.
  intros Hobs Hsrc. unfold raises, ith_group. run.
  fold (group_view adata labels group). rewrite Hsrc. done.
Qed.

End ith.

Lemma length_setitem_mask arr mask v : length (setitem_mask arr mask v) = length arr.
Proof.
  revert mask. induction arr as [|y arr IH]; intros [|b mask]; simpl; auto.
Qed.

Lemma setitem_mask_series_eq arr labels group v :
  length arr = length labels →
  setitem_mask arr (series_eq labels group) v
  = zip_with (λ y l, if decide (l = group) then v else y) arr labels.
Proof.
  revert labels. induction arr as [|y arr IH]; intros [|l labels] Hlen;
    simplify_eq/=; [done|].
  rewrite <-(IH labels) by done. unfold series_eq.
  by case_bool_decide; case_decide.
Qed.

Lemma foldl_assign scores labels xs arr :
  length arr = length labels →
  foldl (flip (assign scores labels)) arr xs
  = zip_with (λ y l, if decide (l ∈ xs) then default 0 (scores !! l) else y)
      arr labels.
Proof.
  revert arr. induction xs as [|x xs IH]; intros arr Hlen; simpl.
  - revert labels Hlen. induction arr as [|y arr IH]; intros [|l labels] Hlen;
      simplify_eq/=; [done|].
    f_equal. by apply IH.
  - unfold assign at 2. rewrite IH by by rewrite length_setitem_mask.
    rewrite setitem_mask_series_eq by done.
    clear IH. revert labels Hlen.
    induction arr as [|y arr IH]; intros [|l labels] Hlen; simplify_eq/=; [done|].
    rewrite IH by done. f_equal.
    destruct (decide (l = x)) as [->|Hne].
    + rewrite (decide_True (P := x ∈ x :: xs)) by left. by case_decide.
    + destruct (decide (l ∈ xs)).
      * by rewrite decide_True by by right.
      * rewrite decide_False; [done|]. by rewrite not_elem_of_cons.
Qed.

Lemma foldl_assign_all scores labels arr :
  length arr = length labels →
  foldl (flip (assign scores labels)) arr (unique labels)
  = (λ l, default 0 (scores !! l)) <$> labels.
Proof.
  intros Hlen. rewrite foldl_assign by done.
  assert (∀ l, l ∈ labels → l ∈ unique labels) as Hin
    by (intros; by apply elem_of_unique).
  revert arr Hlen. induction labels as [|l labels IH]; intros [|y arr] Hlen;
    simplify_eq/=; [done|].
  f_equal.
  - rewrite decide_True; [done|]. by left.
  - clear IH. revert arr Hlen.
    assert (∀ l', l' ∈ labels → l' ∈ l :: filter (λ w, w ≠ l) (unique labels)) as Hin'.
    { intros l' Hl'. apply (Hin l'). by right. }
    clear Hin. generalize dependent (l :: filter (λ w, w ≠ l) (unique labels)).
    intros xs Hin'. induction labels as [|l' labels IH]; intros [|y' arr] Hlen;
      simplify_eq/=; [done|].
    rewrite decide_True by (apply Hin'; by left). f_equal.
    apply IH; [|done]. intros; apply Hin'. by right.
Qed.

Lemma ith_assign_returns adata groupby labels scores group v arr :
  obs adata !! groupby = Some labels →
  scores !! group = Some v →
  returns (ith_assign groupby scores group arr) adata (assign scores labels group arr).
Proof.
  intros Hobs Hv. unfold returns, ith_assign, assign. run. by rewrite Hv.
Qed.

Lemma ith_assign_raises adata groupby scores group arr :
  scores !! group = None →
  raises (ith_assign groupby scores group arr) adata (KeyError group).
Proof. intros Hv. unfold ith_assign. eauto with run. Qed.

(** The first element of a list that fails a test splits the list. *)
Lemma first_failure {A} (P : A → Prop) `{∀ x, Decision (P x)} (xs : list A) :
  Exists (λ x, ¬ P x) xs →
  ∃ (ys : list A) (x : A) (zs : list A),
    xs = (ys ++ x :: zs)%list ∧ Forall P ys ∧ ¬ P x.
Proof.
  induction xs as [|x xs IH]; intros Hex; [by apply Exists_nil in Hex|].
  destruct (decide (P x)) as [HP|HP].
  - apply Exists_cons in Hex as [?|Hex]; [done|].
    destruct (IH Hex) as (ys & y & zs & -> & Hys & Hy).
    exists (x :: ys), y, zs. by repeat constructor.
  - exists [], x, xs. by repeat constructor.
Qed.

Section algorithm.
Context (source : AnnData → res mtx) (message : nat → list nat → string).
Context (pearson : list Qc → list Qc → Qc) (heap : nat → Qc).
Context (adata : AnnData) (groupby : string) (labels : list obsval).
Context (Hobs : obs adata !! groupby = Some labels).

Lemma lookup_ith_scores group :
  (ith_scores source pearson adata labels) !! group
  = if decide (group ∈ labels)
    then ith_score_of source pearson adata labels group else None.
Proof using Type.
  unfold ith_scores.  rewrite lookup_collect, lookup_empty.
  destruct (decide (group ∈ unique labels)) as [Hin|Hin];
    rewrite elem_of_unique in Hin.
  - rewrite decide_True by done. by destruct (ith_score_of _ _ _ _ _).
  - by rewrite decide_False.
Qed.

Lemma ith_scores_returns :
  source_aligned source adata labels →
  returns (for_each (unique labels) (ith_group source message pearson groupby) ∅)
    adata (ith_scores source pearson adata labels).
Proof using Hobs.
  intros Hsrc. apply (for_each_returns _ _ (store (ith_score_of source pearson adata labels))).
  intros x scores Hx. rewrite elem_of_unique in Hx.
  destruct (Hsrc x Hx) as (X & HX & Hshape).
  eapply ith_group_returns; eauto.
Qed.

Lemma ith_algorithm_returns key_added :
  source_aligned source adata labels →
  ith_algorithm source message pearson heap groupby false key_added adata
  = mk_outcome (Ok (Some (ith_scores source pearson adata labels))) adata [].
Proof using Hobs.
  intros Hsrc. unfold ith_algorithm. run.
  by rewrite (bind_returns _ _ _ _ (ith_scores_returns Hsrc)).
Qed.

Lemma ith_algorithm_inplace key_added :
  source_aligned source adata labels →
  length labels = n_obs adata →
  (∀ group, group ∈ labels → is_Some ((ith_scores source pearson adata labels) !! group)) →
  ith_algorithm source message pearson heap groupby true key_added adata
  = mk_outcome (Ok None)
      (set_obs adata key_added ((λ l, default 0 ((ith_scores source pearson adata labels) !! l)) <$> labels)) [].
Proof using Hobs.
  intros Hsrc Hlen Hall. unfold ith_algorithm. run.
  rewrite (bind_returns _ _ _ _ (ith_scores_returns Hsrc)). run.
  erewrite bind_returns.
  2:{ apply (for_each_returns _ _ (assign (ith_scores source pearson adata labels) labels)).
      intros x arr Hx. rewrite elem_of_unique in Hx.
      destruct (Hall x Hx) as [v Hv]. by eapply ith_assign_returns. }
  rewrite foldl_assign_all; [done|].
  unfold np_empty. by rewrite length_fmap, length_seq.
Qed.

Lemma ith_algorithm_KeyError key_added :
  source_aligned source adata labels →
  Exists (λ group, (ith_scores source pearson adata labels) !! group = None) (unique labels) →
  ∃ group, group ∈ labels ∧ (ith_scores source pearson adata labels) !! group = None
    ∧ ith_algorithm source message pearson heap groupby true key_added adata
      = mk_outcome (Raise (KeyError group)) adata [].
Proof using Hobs.
  intros Hsrc Hex.
  destruct (first_failure (λ x, is_Some ((ith_scores source pearson adata labels) !! x)) (unique labels))
    as (ys & x & zs & Hsplit & Hys & Hx).
  { eapply Exists_impl; [exact Hex|]. simpl. intros x ->. by intros [? ?]. }
  apply eq_None_not_Some in Hx.
  exists x. split_and!; [|done|].
  { apply elem_of_unique. rewrite Hsplit. apply elem_of_app. right. by left. }
  unfold ith_algorithm. run.
  rewrite (bind_returns _ _ _ _ (ith_scores_returns Hsrc)). run.
  apply bind_raises. rewrite Hsplit.
  apply (for_each_raises _ _ _ _ (assign (ith_scores source pearson adata labels) labels)).
  - intros y arr Hy. rewrite Forall_forall in Hys.
    destruct (Hys y Hy) as [v Hv]. by eapply ith_assign_returns.
  - intros arr. by apply ith_assign_raises.
Qed.

End algorithm.

Section outcomes.
Context (source : AnnData → res mtx) (message : nat → list nat → string).
Context (pearson : list Qc → list Qc → Qc) (heap : nat → Qc).

Lemma ith_group_readonly groupby group scores :
  readonly (ith_group source message pearson groupby group scores).
Proof. unfold ith_group. readonly. Qed.

Lemma ith_assign_readonly groupby scores group arr :
  readonly (ith_assign groupby scores group arr).
Proof. unfold ith_assign. readonly. Qed.

Lemma ith_assign_loop adata groupby labels scores xs arr :
  obs adata !! groupby = Some labels →
  (∃ x, x ∈ xs ∧ scores !! x = None
        ∧ raises (for_each xs (ith_assign groupby scores) arr) adata (KeyError x))
  ∨ ((∀ x, x ∈ xs → is_Some (scores !! x))
     ∧ returns (for_each xs (ith_assign groupby scores) arr) adata
         (foldl (flip (assign scores labels)) arr xs)).
Proof.
  intros Hobs.
  destruct (decide (Forall (λ x, is_Some (scores !! x)) xs)) as [Hall|Hex].
  - rewrite Forall_forall in Hall. right. split; [done|].
    apply (for_each_returns _ _ (assign scores labels)). intros x arr' Hx.
    destruct (Hall x Hx) as [v Hv]. by eapply ith_assign_returns.
  - left. apply not_Forall_Exists in Hex; [|apply _].
    destruct (first_failure _ _ Hex) as (ys & x & zs & -> & Hys & Hx).
    apply eq_None_not_Some in Hx. exists x. split_and!; [|done|].
    { apply elem_of_app. right. by left. }
    apply (for_each_raises _ _ _ _ (assign scores labels)).
    + intros y arr' Hy. rewrite Forall_forall in Hys.
      destruct (Hys y Hy) as [v Hv]. by eapply ith_assign_returns.
    + intros arr'. by apply ith_assign_raises.
Qed.

(** The outcomes of the algorithm with [inplace=True]: an exception and the
    dataset untouched, or the mapping broadcast into the column. *)
Lemma ith_algorithm_inplace_cases groupby key_added adata :
  let o := ith_algorithm source message pearson heap groupby true key_added adata in
  (∃ e, o = mk_outcome (Raise e) adata [])
  ∨ (∃ labels scores,
       obs adata !! groupby = Some labels
       ∧ ith_algorithm source message pearson heap groupby false key_added adata
         = mk_outcome (Ok (Some scores)) adata []
       ∧ (∀ x, x ∈ labels → is_Some (scores !! x))
       ∧ o = mk_outcome (Ok None)
               (set_obs adata key_added
                  (foldl (flip (assign scores labels))
                     (np_empty heap (n_obs adata)) (unique labels))) []).
Proof.
  intros o. unfold o, ith_algorithm.
  destruct (obs adata !! groupby) as [labels|] eqn:Hobs.
  2:{ left. eexists. apply bind_raises. eauto with run. }
  run.
  destruct (readonly_for_each (unique labels)
              (ith_group source message pearson groupby) ∅
              (ith_group_readonly groupby) adata) as [[scores|e] Hloop].
  2:{ left. exists e. by apply bind_raises. }
  rewrite !(bind_returns _ _ _ scores Hloop). run.
  destruct (ith_assign_loop adata groupby labels scores (unique labels)
              (np_empty heap (n_obs adata)) Hobs)
    as [(x & Hx & Hnone & Hraise)|[Hall Hret]].
  - left. exists (KeyError x). by apply bind_raises.
  - right. exists labels, scores. split_and!; try done.
    + unfold ith_algorithm. by run.
    + intros x Hx. apply Hall. by apply elem_of_unique.
    + by rewrite (bind_returns _ _ _ _ Hret).
Qed.

End outcomes.

(** ** The score of a group *)

Lemma lookup_concat_uniform {A} (ls : list (list A)) n i j l :
  Forall (λ l, length l = n) ls → ls !! i = Some l → (j < n)%nat →
  concat ls !! (i * n + j)%nat = l !! j.
Proof.
  intros Hls. revert i. induction Hls as [|l' ls Hl' Hls IH]; intros i Hi Hj.
  - by rewrite lookup_nil in Hi.
  - destruct i as [|i]; simplify_eq/=.
    + by rewrite lookup_app_l by lia.
    + rewrite lookup_app_r by lia.
      replace (length l' + i * length l' + j - length l')%nat
        with (i * length l' + j)%nat by lia.
      by apply IH.
Qed.

Lemma length_concat_uniform {A} (ls : list (list A)) n :
  Forall (λ l, length l = n) ls → length (concat ls) = (length ls * n)%nat.
Proof.
  induction 1 as [|l ls Hl Hls IH]; [done|]. simpl. rewrite length_app. lia.
Qed.

Lemma full_corr_entries pearson rows :
  length (full_corr pearson rows) = (length rows * length rows)%nat
  ∧ ∀ i j ri rj, rows !! i = Some ri → rows !! j = Some rj →
      full_corr pearson rows !! (i * length rows + j)%nat = Some (pearson ri rj).
Proof.
  rewrite full_corr_concat.
  assert (Forall (λ l : list Qc, length l = length rows)
            (map (λ ri, map (λ rj, pearson ri rj) rows) rows)) as Hlen.
  { apply Forall_forall. intros l [ri [-> _]]%list_elem_of_fmap.
    by rewrite length_map. }
  split.
  - rewrite (length_concat_uniform _ _ Hlen). by rewrite length_map.
  - intros i j ri rj Hi Hj.
    rewrite (lookup_concat_uniform _ (length rows) i j (map (pearson ri) rows));
      [|done| |by eapply lookup_lt_Some].
    + change (map (pearson ri) rows) with (pearson ri <$> rows).
      by rewrite list_lookup_fmap, Hj.
    + change (map ?f rows) with (f <$> rows). by rewrite list_lookup_fmap, Hi.
Qed.

Lemma group_size_elem_of labels group :
  (1 ≤ group_size labels group)%nat → group ∈ labels.
Proof.
  unfold group_size. intros Hn.
  destruct (filter (λ w, w = group) labels) as [|x l] eqn:Hf; simpl in Hn; [lia|].
  assert (x ∈ filter (λ w, w = group) labels) as Hx by (rewrite Hf; left).
  apply list_elem_of_filter in Hx as [-> ?]. done.
Qed.

Lemma wf_adata_length_obs adata key col :
  wf_adata adata → obs adata !! key = Some col → length col = n_obs adata.
Proof. intros (_ & _ & _ & _ & Hobs) Hcol. by eapply Hobs. Qed.

Lemma wf_adata_shape0_obsm adata key m :
  wf_adata adata → obsm adata !! key = Some m → shape0 m = n_obs adata.
Proof. intros (_ & _ & _ & Hobsm & _) Hm. by eapply Hobsm. Qed.

Section scores.
Context (source : AnnData → res mtx) (pearson : list Qc → list Qc → Qc).
Context (adata : AnnData) (labels : list obsval).
Context (Hlen : length labels = n_obs adata).
Context (Hsrc : source_aligned source adata labels).

Lemma ith_scores_lookup group X :
  source (group_view adata labels group) = Ok X →
  (2 ≤ group_size labels group)%nat →
  let n := group_size labels group in
  ith_scores source pearson adata labels !! group
  = Some (iqr (mk_ndarray [n; n] (full_corr pearson (dense_rows X)))).
Proof using Hlen Hsrc.
  intros HX Hn n. rewrite lookup_ith_scores.
  assert (group ∈ labels) as Hin by (apply group_size_elem_of; lia).
  rewrite decide_True by done. unfold ith_score_of. rewrite HX.
  destruct (Hsrc group Hin) as (X' & HX' & Hshape).
  rewrite HX in HX'. injection HX' as <-.
  rewrite n_obs_group_view in Hshape by done.
  unfold ith_score. rewrite Hshape. by rewrite bool_decide_eq_false_2 by lia.
Qed.

Lemma ith_scores_lookup_None group :
  group ∈ labels →
  ith_scores source pearson adata labels !! group = None
  ↔ (group_size labels group ≤ 1)%nat.
Proof using Hlen Hsrc.
  intros Hin. rewrite lookup_ith_scores, decide_True by done.
  unfold ith_score_of. destruct (Hsrc group Hin) as (X & -> & Hshape).
  rewrite n_obs_group_view in Hshape by done.
  unfold ith_score. rewrite Hshape. by case_bool_decide.
Qed.

End scores.

Lemma obsm_group_view adata labels group key m :
  obsm adata !! key = Some m →
  getitem (obsm (group_view adata labels group)) key
  = Ok (mtx_getitem_rows m (series_eq labels group)).
Proof. intros Hm. unfold getitem, group_view. simpl. by rewrite lookup_fmap, Hm. Qed.

Lemma obsm_source_aligned adata labels key m :
  obsm adata !! key = Some m →
  shape0 m = n_obs adata →
  source_aligned (λ tmp, getitem (obsm tmp) key) adata labels.
Proof.
  intros Hm Hshape group _. eexists. split; [by apply obsm_group_view|].
  by apply shape0_getitem_rows.
Qed.

Lemma choose_mtx_rep_spec_aligned adata use_raw layer X :
  wf_adata adata →
  choose_mtx_rep_spec adata use_raw layer = Ok X → shape0 X = n_obs adata.
Proof.
  intros (HX & Hraw & Hlayers & _) Hch. unfold choose_mtx_rep_spec in Hch.
  destruct layer as [l|].
  - unfold getitem in Hch. destruct (layers adata !! l) as [m|] eqn:Hm;
      simplify_eq. by apply (Hlayers l).
  - destruct use_raw as [[]|], (raw adata) as [m|]; simplify_eq/=;
      try apply Hraw; apply HX.
Qed.

Lemma choose_mtx_rep_spec_well_behaved use_raw layer :
  source_well_behaved (λ tmp, choose_mtx_rep_spec tmp use_raw layer).
Proof.
  intros tmp Hwf.
  destruct (choose_mtx_rep_spec tmp use_raw layer) as [X|e] eqn:Hch.
  - by eapply choose_mtx_rep_spec_aligned.
  - unfold choose_mtx_rep_spec, getitem in Hch.
    repeat case_match; simplify_eq; tauto.
Qed.

Lemma choose_mtx_rep_spec_default_aligned adata labels :
  wf_adata adata →
  source_aligned (λ tmp, choose_mtx_rep_spec tmp None None) adata labels.
Proof.
  intros Hwf group _.
  pose proof (wf_adata_getitem adata (series_eq labels group) Hwf) as Hview.
  fold (group_view adata labels group) in Hview.
  destruct (choose_mtx_rep_spec (group_view adata labels group) None None)
    as [X|e] eqn:Hch.
  - exists X. split; [done|]. by eapply choose_mtx_rep_spec_aligned.
  - unfold choose_mtx_rep_spec in Hch. by repeat case_match.
Qed.

(** C2. The score [ithgex] and [ithcna] give a group of at least two cells
    is the 75th minus the 25th percentile of the entries of the full
    correlation matrix of the group's rows: an array of shape (n, n), n the
    number of cells of the group, that holds the coefficient of every
    ordered pair of rows (each pair in both orders, and every row with
    itself).  For [ithgex] the rows are those of the matrix chosen for the
    group's view, for [ithcna] those of the representation. *)
Theorem ith_score_iqr_of_full_correlation chooser pearson heap adata groupby
    use_raw layer use_rep key_added labels :
  wf_adata adata →
  obs adata !! groupby = Some labels →
  (source_aligned (λ tmp, chooser tmp use_raw layer) adata labels →
   ∃ d, result (ithgex chooser pearson heap groupby use_raw layer false
                  key_added adata) = Ok (Some d)
      ∧ ∀ group X,
          chooser (group_view adata labels group) use_raw layer = Ok X →
          (2 ≤ group_size labels group)%nat →
          let n := group_size labels group in
          let pcorr := mk_ndarray [n; n] (full_corr pearson (dense_rows X)) in
          d !! group = Some (np_percentile pcorr 75 - np_percentile pcorr 25))
  ∧ (∀ rep, obsm adata !! use_rep = Some rep →
     ∃ d, result (ithcna pearson heap groupby use_rep key_added false adata)
          = Ok (Some d)
        ∧ ∀ group,
            (2 ≤ group_size labels group)%nat →
            let n := group_size labels group in
            let pcorr :=
              mk_ndarray [n; n] (full_corr pearson (group_rows labels rep group)) in
            d !! group = Some (np_percentile pcorr 75 - np_percentile pcorr 25))
  ∧ (∀ rows,
       length (full_corr pearson rows) = (length rows * length rows)%nat
       ∧ ∀ i j ri rj, rows !! i = Some ri → rows !! j = Some rj →
           full_corr pearson rows !! (i * length rows + j)%nat
           = Some (pearson ri rj)).
Proof.
  intros Hwf Hobs.
  pose proof (wf_adata_length_obs _ _ _ Hwf Hobs) as Hlen.
  split_and!.
  - intros Hsrc. eexists. split.
    + rewrite ithgex_algorithm. by erewrite ith_algorithm_returns.
    + intros group X HX Hn. by apply (ith_scores_lookup _ _ _ _ Hlen Hsrc).
  - intros rep Hrep.
    pose proof (obsm_source_aligned adata labels use_rep rep Hrep
                  (wf_adata_shape0_obsm _ _ _ Hwf Hrep)) as Hsrc'.
    eexists. split.
    + rewrite ithcna_algorithm. by erewrite ith_algorithm_returns.
    + intros group Hn.
      rewrite (ith_scores_lookup _ _ _ _ Hlen Hsrc' group _
                 (obsm_group_view _ _ _ _ _ Hrep) Hn).
      by rewrite dense_rows_getitem_rows.
  - apply full_corr_entries.
Qed.

(** C2 on [two_groups]: with the stand-in coefficient the correlation matrix
    of a group is 1, 1/2, 1/2, 1 and its interquartile range 1/2. *)
Lemma ith_score_iqr_witness :
  ∃ d d',
    result (ithgex choose_mtx_rep_spec example_pearson example_heap "patient"
              None None false "ithgex" two_groups) = Ok (Some d)
    ∧ d !! VStr "P1" = Some (Q2Qc 0.5)
    ∧ result (ithcna example_pearson example_heap "patient" "X_cnv" "ithcna"
                false two_groups) = Ok (Some d')
    ∧ d' !! VStr "P2" = Some (Q2Qc 0.5).
Proof.
  destruct (ith_score_iqr_of_full_correlation choose_mtx_rep_spec example_pearson
              example_heap two_groups "patient" None None "X_cnv" "ithcna"
              [VStr "P1"; VStr "P2"; VStr "P1"; VStr "P2"])
    as (Hgex & Hcna & _).
  - exact wf_two_groups.
  - reflexivity.
  - destruct Hgex as (d & Hd & Hscore).
    { apply choose_mtx_rep_spec_default_aligned, wf_two_groups. }
    destruct (Hcna (Sparse 3 [[(0%nat, Q2Qc 0.1); (2%nat, Q2Qc (-0.2))];
                              [(1%nat, Q2Qc 0.3)]; []; [(0%nat, Q2Qc 1.0)]]))
      as (d' & Hd' & Hscore'); [reflexivity|].
    exists d, d'. split_and!; [exact Hd| |exact Hd'|].
    + erewrite Hscore; [|reflexivity|vm_compute; lia]. by_evaluation.
    + rewrite Hscore' by (vm_compute; lia). by_evaluation.
Defined.

(** ** A group of at most one cell *)

Lemma ith_algorithm_singleton source message pearson heap adata groupby key_added
    labels :
  obs adata !! groupby = Some labels →
  length labels = n_obs adata →
  source_aligned source adata labels →
  (∃ group, group ∈ labels ∧ (group_size labels group ≤ 1)%nat) →
  ∃ group,
    group ∈ labels ∧ (group_size labels group ≤ 1)%nat
    ∧ ith_algorithm source message pearson heap groupby true key_added adata
      = mk_outcome (Raise (KeyError group)) adata []
    ∧ ∃ d, ith_algorithm source message pearson heap groupby false key_added adata
           = mk_outcome (Ok (Some d)) adata []
         ∧ d !! group = None.
Proof.
  intros Hobs Hlen Hsrc (group & Hin & Hsize).
  destruct (ith_algorithm_KeyError source message pearson heap adata groupby
              labels Hobs key_added Hsrc) as (g & Hg & Hnone & Hraise).
  { apply Exists_exists. exists group. split; [by apply elem_of_unique|].
    by apply ith_scores_lookup_None. }
  exists g. split_and!; try done.
  - by apply (ith_scores_lookup_None source pearson adata labels Hlen Hsrc).
  - eexists. split; [by apply ith_algorithm_returns|done].
Qed.

(** C9. When some group of the grouping column has at most one cell, and
    the scoring loop itself meets no error (every group's matrix is found),
    [ithgex] and [ithcna] called with [inplace=True] raise [KeyError] for
    such a group: the scoring loop has run to its end (with [inplace=False]
    the same call returns the mapping, which has no entry for the group), the
    failed lookup is the one of the broadcasting loop, and the dataset is
    left as it was, no column written. *)
Theorem ith_inplace_singleton_KeyError chooser pearson heap adata groupby
    use_raw layer use_rep key_added labels :
  wf_adata adata →
  obs adata !! groupby = Some labels →
  (∃ group, group ∈ labels ∧ (group_size labels group ≤ 1)%nat) →
  (source_aligned (λ tmp, chooser tmp use_raw layer) adata labels →
   ∃ group,
     group ∈ labels ∧ (group_size labels group ≤ 1)%nat
     ∧ ithgex chooser pearson heap groupby use_raw layer true key_added adata
       = mk_outcome (Raise (KeyError group)) adata []
     ∧ ∃ d, ithgex chooser pearson heap groupby use_raw layer false key_added
              adata = mk_outcome (Ok (Some d)) adata []
          ∧ d !! group = None)
  ∧ (is_Some (obsm adata !! use_rep) →
     ∃ group,
       group ∈ labels ∧ (group_size labels group ≤ 1)%nat
       ∧ ithcna pearson heap groupby use_rep key_added true adata
         = mk_outcome (Raise (KeyError group)) adata []
       ∧ ∃ d, ithcna pearson heap groupby use_rep key_added false adata
              = mk_outcome (Ok (Some d)) adata []
            ∧ d !! group = None).
Proof.
  intros Hwf Hobs Hsingle.
  pose proof (wf_adata_length_obs _ _ _ Hwf Hobs) as Hlen.
  split.
  - intros Hsrc. rewrite !ithgex_algorithm. by apply ith_algorithm_singleton.
  - intros [rep Hrep]. rewrite !ithcna_algorithm.
    apply ith_algorithm_singleton; try done.
    apply (obsm_source_aligned _ _ _ rep); [done|].
    by eapply wf_adata_shape0_obsm.
Qed.

(** C9 on [with_singleton]. *)
Lemma ith_inplace_singleton_KeyError_witness :
  (∃ group,
     group ∈ [VStr "A"; VStr "A"; VStr "B"]
     ∧ (group_size [VStr "A"; VStr "A"; VStr "B"] group ≤ 1)%nat
     ∧ ithgex choose_mtx_rep_spec example_pearson example_heap "patient" None
         None true "ithgex" with_singleton
       = mk_outcome (Raise (KeyError group)) with_singleton []
     ∧ ∃ d, ithgex choose_mtx_rep_spec example_pearson example_heap "patient"
              None None false "ithgex" with_singleton
            = mk_outcome (Ok (Some d)) with_singleton []
          ∧ d !! group = None)
  ∧ (∃ group,
       group ∈ [VStr "A"; VStr "A"; VStr "B"]
       ∧ (group_size [VStr "A"; VStr "A"; VStr "B"] group ≤ 1)%nat
       ∧ ithcna example_pearson example_heap "patient" "X_cnv" "ithgex" true
           with_singleton
         = mk_outcome (Raise (KeyError group)) with_singleton []
       ∧ ∃ d, ithcna example_pearson example_heap "patient" "X_cnv" "ithgex"
                false with_singleton
              = mk_outcome (Ok (Some d)) with_singleton []
            ∧ d !! group = None).
Proof.
  destruct (ith_inplace_singleton_KeyError choose_mtx_rep_spec example_pearson
              example_heap with_singleton "patient" None None "X_cnv" "ithgex"
              [VStr "A"; VStr "A"; VStr "B"]) as [Hgex Hcna].
  - exact wf_with_singleton.
  - reflexivity.
  - exists (VStr "B"). split; [|vm_compute; lia]. by_evaluation.
  - split.
    + apply Hgex, choose_mtx_rep_spec_default_aligned, wf_with_singleton.
    + apply Hcna. eexists. reflexivity.
Defined.

(** ** The column written with [inplace=True] *)

Lemma scored_by_group_set_obs adata groupby key_added labels (score : obsval → Qc) :
  obs adata !! groupby = Some labels →
  length labels = n_obs adata →
  scored_by_group adata groupby key_added
    (set_obs adata key_added (score <$> labels)).
Proof.
  intros Hobs Hlen. exists labels, (VNum <$> (score <$> labels)).
  split_and!; [done|simpl; by rewrite lookup_insert_eq|by rewrite !length_fmap|].
  intros i j group Hi Hj. exists (score group).
  by rewrite !list_lookup_fmap, Hi, Hj.
Qed.

Lemma length_np_empty heap n : length (np_empty heap n) = n.
Proof. unfold np_empty. by rewrite length_fmap, length_seq. Qed.

Lemma ith_algorithm_scored_by_group source message pearson heap adata groupby
    key_added r :
  (∀ col, obs adata !! groupby = Some col → length col = n_obs adata) →
  result (ith_algorithm source message pearson heap groupby true key_added adata)
  = Ok r →
  scored_by_group adata groupby key_added
    (after (ith_algorithm source message pearson heap groupby true key_added adata)).
Proof.
  intros Hlen Hok.
  destruct (ith_algorithm_inplace_cases source message pearson heap groupby
              key_added adata) as [[e He]|(labels & d & Hobs & _ & _ & Ho)].
  { by rewrite He in Hok. }
  rewrite Ho. simpl. rewrite foldl_assign_all.
  - apply scored_by_group_set_obs; auto.
  - rewrite length_np_empty. symmetry. auto.
Qed.

Lemma cnv_score_missing_groupby adata groupby use_rep key_added inplace :
  obs adata !! groupby = None →
  ∃ e, cnv_score groupby use_rep key_added inplace None adata
       = mk_outcome (Raise e) adata [].
Proof.
  intros Hobs. unfold cnv_score. run. rewrite Hobs.
  rewrite bool_decide_eq_false_2 by (by intros [? ?]). cbn [negb andb].
  case_bool_decide; eexists; [done|]. apply bind_raises. eauto with run.
Qed.

Lemma cnv_score_scored_by_group adata groupby use_rep key_added r :
  (∀ col, obs adata !! groupby = Some col → length col = n_obs adata) →
  result (cnv_score groupby use_rep key_added true None adata) = Ok r →
  scored_by_group adata groupby key_added
    (after (cnv_score groupby use_rep key_added true None adata)).
Proof.
  intros Hlen. destruct (obs adata !! groupby) as [labels|] eqn:Hobs.
  2:{ destruct (cnv_score_missing_groupby adata groupby use_rep key_added true
                  Hobs) as [e ->]. done. }
  destruct (obsm adata !! ("X_" +:+ use_rep)) as [rep|] eqn:Hobsm.
  { rewrite (cnv_score_run _ _ _ _ _ _ _ Hobs Hobsm). intros _. simpl.
    apply scored_by_group_set_obs; auto. }
  destruct labels as [|l labels].
  - intros _.
    assert (cnv_score groupby use_rep key_added true None adata
            = mk_outcome (Ok None) (set_obs adata key_added []) []) as ->.
    { unfold cnv_score. run. rewrite Hobs, bool_decide_eq_true_2 by done.
      cbn [negb andb]. run. rewrite (bind_returns _ _ _ ∅) by done. by run. }
    apply (scored_by_group_set_obs _ _ _ [] (λ _, 0)); auto.
  - unfold cnv_score. run. rewrite Hobs, bool_decide_eq_true_2 by done.
    cbn [negb andb]. run.
    rewrite (bind_raises _ _ _ (KeyError (VStr ("X_" +:+ use_rep)))); [done|].
    simpl. apply bind_raises, bind_raises. eauto with run.
Qed.

(** C5. After a call with [inplace=True] that returns, the column added
    holds one score per cell of the dataset, and two cells of the same group
    hold the same score: for [cnv_score], [ithgex] and [ithcna] alike. *)
Theorem same_group_same_score chooser pearson heap adata groupby cnv_rep
    use_rep use_raw layer key_added obs_key :
  wf_adata adata →
  let o1 := cnv_score groupby cnv_rep key_added true obs_key adata in
  let o2 := ithgex chooser pearson heap groupby use_raw layer true key_added
              adata in
  let o3 := ithcna pearson heap groupby use_rep key_added true adata in
  (∀ r, result o1 = Ok r →
     scored_by_group adata (default groupby obs_key) key_added (after o1))
  ∧ (∀ r, result o2 = Ok r → scored_by_group adata groupby key_added (after o2))
  ∧ (∀ r, result o3 = Ok r → scored_by_group adata groupby key_added (after o3)).
Proof.
  intros Hwf o1 o2 o3.
  assert (∀ g col, obs adata !! g = Some col → length col = n_obs adata) as Hlen
    by (intros; by eapply wf_adata_length_obs).
  split_and!.
  - intros r. unfold o1.
    destruct (cnv_score_default_groupby groupby cnv_rep key_added true obs_key
                adata) as [-> ->].
    apply cnv_score_scored_by_group, Hlen.
  - intros r. unfold o2. rewrite ithgex_algorithm.
    apply ith_algorithm_scored_by_group, Hlen.
  - intros r. unfold o3. rewrite ithcna_algorithm.
    apply ith_algorithm_scored_by_group, Hlen.
Qed.

(** C5 on [two_groups]: the three calls return and write such a column. *)
Lemma same_group_same_score_witness :
  scored_by_group two_groups "patient" "score"
    (after (cnv_score "patient" "cnv" "score" true None two_groups))
  ∧ scored_by_group two_groups "patient" "score"
      (after (ithgex choose_mtx_rep_spec example_pearson example_heap "patient"
                None None true "score" two_groups))
  ∧ scored_by_group two_groups "patient" "score"
      (after (ithcna example_pearson example_heap "patient" "X_cnv" "score" true
                two_groups)).
Proof.
  destruct (same_group_same_score choose_mtx_rep_spec example_pearson
              example_heap two_groups "patient" "cnv" "X_cnv" None None "score"
              None wf_two_groups) as (H1 & H2 & H3).
  split; [|split].
  - apply (H1 None). vm_compute. reflexivity.
  - apply (H2 None). vm_compute. reflexivity.
  - apply (H3 None). vm_compute. reflexivity.
Defined.

(** ** The shape assertion *)

Lemma shape_np_corrcoef pearson X :
  (2 ≤ shape0 X)%nat →
  shape (np_corrcoef pearson (if issparse X then todense X else X))
  = [shape0 X; shape0 X].
Proof.
  intros Hn. rewrite np_corrcoef_full by by rewrite shape0_densify.
  by rewrite shape0_densify.
Qed.

Section assertion.
Context (source : AnnData → res mtx) (message : nat → list nat → string).
Context (pearson : list Qc → list Qc → Qc) (heap : nat → Qc).
Context (adata : AnnData) (Hwf : wf_adata adata).
Context (Hsrc : source_well_behaved source).

Lemma ith_group_no_assertion groupby group scores :
  not_AssertionError
    (result (ith_group source message pearson groupby group scores adata)).
Proof using Hwf Hsrc.
  destruct (obs adata !! groupby) as [labels|] eqn:Hobs.
  2:{ unfold ith_group.
      rewrite (bind_raises _ _ _ (KeyError (VStr groupby))) by eauto with run.
      simpl. tauto. }
  pose proof (Hsrc (group_view adata labels group)
                (wf_adata_getitem _ _ Hwf)) as HX.
  destruct (source (group_view adata labels group)) as [X|e] eqn:Hsource.
  - by rewrite (ith_group_returns source message pearson adata groupby labels
                  group X scores Hobs Hsource (or_intror HX)).
  - by rewrite (ith_group_source_raises source message pearson adata groupby
                  labels group e scores Hobs Hsource).
Qed.

Lemma ith_scores_loop_no_assertion groupby xs scores :
  not_AssertionError
    (result (for_each xs (ith_group source message pearson groupby) scores adata)).
Proof using Hwf Hsrc.
  revert scores. induction xs as [|x xs IH]; intros scores; [done|].
  simpl. pose proof (ith_group_no_assertion groupby x scores) as Hx.
  destruct (ith_group_readonly source message pearson groupby x scores adata)
    as [[scores'|e] Hr]; rewrite Hr in Hx.
  - rewrite (bind_returns _ _ _ scores' Hr). apply IH.
  - by rewrite (bind_raises _ _ _ e Hr).
Qed.

Lemma ith_algorithm_no_assertion groupby inplace key_added :
  not_AssertionError
    (result (ith_algorithm source message pearson heap groupby inplace key_added
               adata)).
Proof using Hwf Hsrc.
  unfold ith_algorithm.
  destruct (obs adata !! groupby) as [labels|] eqn:Hobs.
  2:{ rewrite (bind_raises _ _ _ (KeyError (VStr groupby))) by eauto with run.
      simpl. tauto. }
  run. pose proof (ith_scores_loop_no_assertion groupby (unique labels) ∅) as Hloop.
  destruct (readonly_for_each (unique labels)
              (ith_group source message pearson groupby) ∅
              (ith_group_readonly source message pearson groupby) adata)
    as [[scores|e] Hr]; rewrite Hr in Hloop.
  2:{ by rewrite (bind_raises _ _ _ e Hr). }
  rewrite (bind_returns _ _ _ scores Hr). destruct inplace; [|done]. run.
  destruct (ith_assign_loop adata groupby labels scores (unique labels)
              (np_empty heap (n_obs adata)) Hobs)
    as [(x & Hx & Hnone & Hraise)|[Hall Hret]].
  - rewrite (bind_raises _ _ _ _ Hraise). simpl. tauto.
  - by rewrite (bind_returns _ _ _ _ Hret).
Qed.

End assertion.

(** The assertion fails, and the call stops there, when the matrix of the
    first group has at least two rows but not one per cell of the group. *)
Lemma ith_algorithm_assertion_fails source message pearson heap adata groupby
    inplace key_added labels group X :
  obs adata !! groupby = Some labels →
  head labels = Some group →
  source (group_view adata labels group) = Ok X →
  (2 ≤ shape0 X)%nat →
  shape0 X ≠ n_obs (group_view adata labels group) →
  ith_algorithm source message pearson heap groupby inplace key_added adata
  = mk_outcome
      (Raise (AssertionError
                (message (n_obs (group_view adata labels group))
                   [shape0 X; shape0 X])))
      adata [].
Proof.
  intros Hobs Hhead HX Hn Hne. unfold ith_algorithm. run.
  destruct labels as [|l labels]; simplify_eq/=.
  apply bind_raises, bind_raises. by eapply ith_group_assertion.
Qed.

Lemma obsm_source_well_behaved key :
  source_well_behaved (λ tmp, getitem (obsm tmp) key).
Proof.
  intros tmp Hwf. unfold getitem.
  destruct (obsm tmp !! key) as [m|] eqn:Hm; [|tauto].
  by eapply wf_adata_shape0_obsm.
Qed.

(** C8. For a matrix of at least two rows the correlation matrix has shape
    (rows, rows).  So on a well-formed dataset, with a matrix source that
    hands out one row per cell, neither [ithgex] nor [ithcna] ever raises
    [AssertionError].  When the first group's matrix has at least two rows but
    not one per cell of the group, the call stops with [AssertionError], an
    exception of its own class, and the dataset untouched. *)
Theorem correlation_shape_assertion chooser pearson heap adata groupby use_raw
    layer use_rep key_added inplace :
  (∀ X, (2 ≤ shape0 X)%nat →
     shape (np_corrcoef pearson (if issparse X then todense X else X))
     = [shape0 X; shape0 X])
  ∧ (wf_adata adata →
     source_well_behaved (λ tmp, chooser tmp use_raw layer) →
     not_AssertionError
       (result (ithgex chooser pearson heap groupby use_raw layer inplace
                  key_added adata))
     ∧ not_AssertionError
         (result (ithcna pearson heap groupby use_rep key_added inplace adata)))
  ∧ (∀ labels group X,
       obs adata !! groupby = Some labels →
       head labels = Some group →
       (2 ≤ shape0 X)%nat →
       shape0 X ≠ n_obs (group_view adata labels group) →
       (chooser (group_view adata labels group) use_raw layer = Ok X →
        ithgex chooser pearson heap groupby use_raw layer inplace key_added adata
        = mk_outcome
            (Raise (AssertionError
                      (ithgex_message (n_obs (group_view adata labels group))
                         [shape0 X; shape0 X])))
            adata [])
       ∧ (getitem (obsm (group_view adata labels group)) use_rep = Ok X →
          ithcna pearson heap groupby use_rep key_added inplace adata
          = mk_outcome (Raise (AssertionError "pcorr is a cell x cell matrix"))
              adata [])).
Proof.
  split_and!.
  - intros X. apply shape_np_corrcoef.
  - intros Hwf Hsrc. split.
    + rewrite ithgex_algorithm. by apply ith_algorithm_no_assertion.
    + rewrite ithcna_algorithm. apply ith_algorithm_no_assertion; [done|].
      apply obsm_source_well_behaved.
  - intros labels group X Hobs Hhead Hn Hne. split; intros HX.
    + rewrite ithgex_algorithm.
      by apply (ith_algorithm_assertion_fails _ _ _ _ _ _ _ _ labels group X).
    + rewrite ithcna_algorithm.
      by apply (ith_algorithm_assertion_fails _ ithcna_message _ _ _ _ _ _
                  labels group X).
Qed.

(** C8 on [two_groups]: a source that hands out all four rows for a group of
    two cells makes the assertion fail, with the message of [ithgex]; the
    source modelled from the specification never does. *)
Lemma correlation_shape_assertion_witness :
  ithgex whole_matrix example_pearson example_heap "patient" None None true
    "ithgex" two_groups
  = mk_outcome
      (Raise (AssertionError "pcorr is a cell x cell matrix 2 (4, 4)"))
      two_groups []
  ∧ not_AssertionError
      (result (ithgex choose_mtx_rep_spec example_pearson example_heap "patient"
                 None None true "ithgex" two_groups)).
Proof.
  destruct (correlation_shape_assertion whole_matrix example_pearson example_heap
              two_groups "patient" None None "X_cnv" "ithgex" true)
    as (_ & _ & Hfails).
  destruct (correlation_shape_assertion choose_mtx_rep_spec example_pearson
              example_heap two_groups "patient" None None "X_cnv" "ithgex" true)
    as (_ & Hnever & _).
  split.
  - apply (Hfails [VStr "P1"; VStr "P2"; VStr "P1"; VStr "P2"] (VStr "P1")
             (X two_groups)).
    + reflexivity.
    + reflexivity.
    + vm_compute. lia.
    + vm_compute. lia.
    + reflexivity.
  - apply Hnever.
    + exact wf_two_groups.
    + apply choose_mtx_rep_spec_well_behaved.
Defined.

(** ** [ithcna] is [ithgex] on the CNV representation *)

Lemma ith_algorithm_unfold source message pearson heap adata groupby inplace
    key_added labels :
  obs adata !! groupby = Some labels →
  ith_algorithm source message pearson heap groupby inplace key_added adata
  = (scores ← for_each (unique labels)
                (ith_group source message pearson groupby) ∅;
     if inplace then
       n ← gets n_obs;
       arr ← for_each (unique labels) (ith_assign groupby scores)
                (np_empty heap n);
       obs_setitem key_added arr;;
       mret None
     else mret (Some scores)) adata.
Proof. intros Hobs. unfold ith_algorithm. by run. Qed.

Section messages.
Context (source : AnnData → res mtx) (message message' : nat → list nat → string).
Context (pearson : list Qc → list Qc → Qc) (heap : nat → Qc).

Lemma ith_group_message adata groupby group scores :
  same_up_to_message adata
    (ith_group source message pearson groupby group scores adata)
    (ith_group source message' pearson groupby group scores adata).
Proof.
  destruct (obs adata !! groupby) as [labels|] eqn:Hobs.
  2:{ left. unfold ith_group.
      etrans; [|symmetry]; apply bind_raises; eauto with run. }
  destruct (source (group_view adata labels group)) as [X|e] eqn:Hsource.
  2:{ left. etrans; [|symmetry]; by eapply ith_group_source_raises. }
  destruct (decide (shape0 X ≤ 1 ∨ shape0 X = n_obs (group_view adata labels group))%nat)
    as [Hshape|Hshape].
  - left. etrans; [|symmetry]; by eapply ith_group_returns.
  - right. do 2 eexists. split; eapply ith_group_assertion; eauto; lia.
Qed.

Lemma ith_scores_loop_message adata groupby xs scores :
  same_up_to_message adata
    (for_each xs (ith_group source message pearson groupby) scores adata)
    (for_each xs (ith_group source message' pearson groupby) scores adata).
Proof.
  revert scores. induction xs as [|x xs IH]; intros scores; [by left|].
  simpl.
  destruct (ith_group_message adata groupby x scores)
    as [Heq|(msg & msg' & H1 & H2)].
  - destruct (ith_group_readonly source message pearson groupby x scores adata)
      as [[scores'|e] Hr].
    + rewrite (bind_returns _ _ _ scores' Hr).
      rewrite Heq in Hr. rewrite (bind_returns _ _ _ scores' Hr). apply IH.
    + left. rewrite (bind_raises _ _ _ e Hr).
      rewrite Heq in Hr. by rewrite (bind_raises _ _ _ e Hr).
  - right. exists msg, msg'. split; by apply bind_raises.
Qed.

Lemma ith_algorithm_message adata groupby inplace key_added :
  same_up_to_message adata
    (ith_algorithm source message pearson heap groupby inplace key_added adata)
    (ith_algorithm source message' pearson heap groupby inplace key_added adata).
Proof.
  destruct (obs adata !! groupby) as [labels|] eqn:Hobs.
  2:{ left. unfold ith_algorithm.
      etrans; [|symmetry]; apply bind_raises; eauto with run. }
  rewrite !(ith_algorithm_unfold _ _ _ _ _ _ _ _ labels Hobs).
  destruct (ith_scores_loop_message adata groupby (unique labels) ∅)
    as [Heq|(msg & msg' & H1 & H2)].
  - left.
    destruct (readonly_for_each (unique labels)
                (ith_group source message pearson groupby) ∅
                (ith_group_readonly source message pearson groupby) adata)
      as [[scores|e] Hr].
    + rewrite (bind_returns _ _ _ scores Hr).
      rewrite Heq in Hr. by rewrite (bind_returns _ _ _ scores Hr).
    + rewrite (bind_raises _ _ _ e Hr).
      rewrite Heq in Hr. by rewrite (bind_raises _ _ _ e Hr).
  - right. exists msg, msg'. split; by apply bind_raises.
Qed.

End messages.

(** C6. [ithcna] with the representation key [use_rep] is [ithgex] run with,
    as its matrix source, the lookup of [use_rep] in [obsm] of the group's
    view: the two calls have the same outcome (value or exception, dataset
    afterwards, warnings), except that a failed shape assertion carries a
    longer message in [ithgex]; on a well-formed dataset the outcomes are
    equal. *)
Theorem ithcna_is_ithgex_on_representation pearson heap adata groupby use_rep
    key_added inplace use_raw layer :
  let o := ithcna pearson heap groupby use_rep key_added inplace adata in
  let o' := ithgex (λ tmp _ _, getitem (obsm tmp) use_rep) pearson heap groupby
              use_raw layer inplace key_added adata in
  same_up_to_message adata o o' ∧ (wf_adata adata → o = o').
Proof.
  intros o o'.
  assert (same_up_to_message adata o o') as Hsim.
  { unfold o, o'. rewrite ithcna_algorithm, ithgex_algorithm.
    apply ith_algorithm_message. }
  split; [done|]. intros Hwf.
  destruct Hsim as [Heq|(msg & msg' & Ho & _)]; [done|].
  pose proof (ith_algorithm_no_assertion (λ tmp, getitem (obsm tmp) use_rep)
                ithcna_message pearson heap adata Hwf
                (obsm_source_well_behaved use_rep) groupby inplace key_added)
    as Hno.
  rewrite <-ithcna_algorithm in Hno. fold o in Hno. rewrite Ho in Hno.
  simpl in Hno. tauto.
Qed.

(** C6 on [two_groups], a well-formed dataset: the outcomes are equal. *)
Lemma ithcna_is_ithgex_witness :
  ithcna example_pearson example_heap "patient" "X_cnv" "ithcna" true two_groups
  = ithgex (λ tmp _ _, getitem (obsm tmp) "X_cnv") example_pearson example_heap
      "patient" None None true "ithcna" two_groups.
Proof.
  exact (proj2 (ithcna_is_ithgex_on_representation example_pearson example_heap
                  two_groups "patient" "X_cnv" "ithcna" true None None)
           wf_two_groups).
Defined.

(** ** The default output column of [ithcna] *)

Lemma wf_adata_set_obs adata key arr :
  wf_adata adata → length arr = n_obs adata → wf_adata (set_obs adata key arr).
Proof.
  intros (HX & Hraw & Hlayers & Hobsm & Hobs) Hlen.
  unfold wf_adata, n_obs in *. simpl. split_and!; try done.
  apply map_Forall_insert_2; [by rewrite length_fmap|done].
Qed.

Lemma length_foldl_assign scores labels xs arr :
  length (foldl (flip (assign scores labels)) arr xs) = length arr.
Proof.
  revert arr. induction xs as [|x xs IH]; intros arr; [done|].
  simpl. rewrite IH. apply length_setitem_mask.
Qed.

(** C10. The default [key_added] of [ithcna] is ["ithgex"], the default of
    [ithgex].  So when [ithgex] and then [ithcna] are called with their
    default column and [inplace=True] and both return, the two calls write
    the same column of [adata.obs]: after the second call that column holds,
    for each cell, the [ithcna] score of the cell's group, the scores of
    [ithgex] are gone, every other column is as it was before the two calls,
    and in particular no column ["ithcna"] has appeared. *)
Theorem ithcna_default_column_is_ithgex chooser pearson heap adata groupby
    use_raw layer :
  let o1 := ithgex chooser pearson heap groupby use_raw layer true
              ithgex_key_added_default adata in
  let o2 := ithcna pearson heap groupby ithcna_use_rep_default
              ithcna_key_added_default true (after o1) in
  ithcna_key_added_default = "ithgex"
  ∧ ithgex_key_added_default = "ithgex"
  ∧ (∀ r1 r2, wf_adata adata → result o1 = Ok r1 → result o2 = Ok r2 →
     ∃ arr1 arr2 labels d,
       after o1 = set_obs adata "ithgex" arr1
       ∧ after o2 = set_obs (after o1) "ithgex" arr2
       ∧ obs (after o2) = <["ithgex" := VNum <$> arr2]> (obs adata)
       ∧ obs (after o2) !! "ithcna" = obs adata !! "ithcna"
       ∧ obs (after o1) !! groupby = Some labels
       ∧ result (ithcna pearson heap groupby ithcna_use_rep_default
                   ithcna_key_added_default false (after o1)) = Ok (Some d)
       ∧ length arr2 = length labels
       ∧ ∀ i group, labels !! i = Some group → arr2 !! i = d !! group).
Proof.
  intros o1 o2. split_and!; [done..|].
  intros r1 r2 Hwf Hr1 Hr2. unfold o2 in *. clear o2.
  unfold o1 in *. clear o1. rewrite ithgex_algorithm in *.
  rewrite !ithcna_algorithm in *.
  unfold ithgex_key_added_default, ithcna_key_added_default in *.
  destruct (ith_algorithm_inplace_cases (λ tmp, chooser tmp use_raw layer)
              ithgex_message pearson heap groupby "ithgex" adata)
    as [[e He]|(labels1 & d1 & Hobs1 & _ & _ & Ho1)].
  { by rewrite He in Hr1. }
  rewrite Ho1 in *. simpl in *.
  set (arr1 := foldl (flip (assign d1 labels1)) (np_empty heap (n_obs adata))
                 (unique labels1)) in *.
  assert (wf_adata (set_obs adata "ithgex" arr1)) as Hwf1.
  { apply wf_adata_set_obs; [done|].
    unfold arr1. by rewrite length_foldl_assign, length_np_empty. }
  destruct (ith_algorithm_inplace_cases
              (λ tmp, getitem (obsm tmp) ithcna_use_rep_default)
              ithcna_message pearson heap groupby "ithgex"
              (set_obs adata "ithgex" arr1))
    as [[e He]|(labels & d & Hobs & Hfalse & Hall & Ho2)].
  { by rewrite He in Hr2. }
  rewrite Ho2, Hfalse. simpl.
  pose proof (wf_adata_length_obs _ _ _ Hwf1 Hobs) as Hlen.
  rewrite foldl_assign_all by by rewrite length_np_empty.
  exists arr1, ((λ l, default 0 (d !! l)) <$> labels), labels, d.
  split_and!; try done.
  - by rewrite insert_insert_eq.
  - by rewrite !lookup_insert_ne.
  - by rewrite length_fmap.
  - intros i group Hi. rewrite list_lookup_fmap, Hi. simpl.
    destruct (Hall group) as [v ->]; [|done].
    by eapply list_elem_of_lookup_2.
Qed.

(** C10 on [two_groups]: after the two calls the column [ithgex] holds what
    [ithcna] wrote and there is no column [ithcna]. *)
Lemma ithcna_default_column_witness :
  let o1 := ithgex choose_mtx_rep_spec example_pearson example_heap "patient"
              None None true ithgex_key_added_default two_groups in
  let o2 := ithcna example_pearson example_heap "patient" ithcna_use_rep_default
              ithcna_key_added_default true (after o1) in
  ∃ arr2,
    obs (after o2) = <["ithgex" := VNum <$> arr2]> (obs two_groups)
    ∧ obs (after o2) !! "ithcna" = None.
Proof.
  intros o1 o2.
  destruct (ithcna_default_column_is_ithgex choose_mtx_rep_spec example_pearson
              example_heap two_groups "patient" None None) as (_ & _ & H).
  destruct (H None None wf_two_groups) as (arr1 & arr2 & labels & d & _ & _ & Hobs & Hcna & _).
  - vm_compute. reflexivity.
  - vm_compute. reflexivity.
  - exists arr2. split; [exact Hobs|]. unfold o2, o1. rewrite Hcna. reflexivity.
Defined.

(** ** A dataset with a group of one cell *)

Section singleton.
Context (source : AnnData → res mtx) (message : nat → list nat → string).
Context (pearson : list Qc → list Qc → Qc) (heap : nat → Qc).
Context (key : string).
Context (Hsrc : source_aligned source with_singleton [VStr "A"; VStr "A"; VStr "B"]).

Lemma with_singleton_mapping :
  ∃ d, ith_algorithm source message pearson heap "patient" false key with_singleton
       = mk_outcome (Ok (Some d)) with_singleton []
     ∧ d !! VStr "B" = None ∧ is_Some (d !! VStr "A").
Proof using Hsrc.
  eexists. split; [by apply ith_algorithm_returns|].
  assert (length [VStr "A"; VStr "A"; VStr "B"] = n_obs with_singleton) as Hlen
    by done.
  split.
  - apply ith_scores_lookup_None; [done|done| |by vm_compute].
    by do 2 right; left.
  - apply not_eq_None_Some. intros Hnone.
    apply (ith_scores_lookup_None source pearson with_singleton _ Hlen Hsrc) in Hnone.
    + vm_compute in Hnone. lia.
    + by left.
Qed.

Lemma with_singleton_KeyError :
  ith_algorithm source message pearson heap "patient" true key with_singleton
  = mk_outcome (Raise (KeyError (VStr "B"))) with_singleton [].
Proof using Hsrc.
  destruct (ith_algorithm_singleton source message pearson heap with_singleton
              "patient" key [VStr "A"; VStr "A"; VStr "B"])
    as (group & Hin & Hsize & Hraise & _); try done.
  { exists (VStr "B"). split; [|by vm_compute]. by do 2 right; left. }
  repeat (apply elem_of_cons in Hin as [->|Hin]); try done.
  - vm_compute in Hsize. lia.
  - vm_compute in Hsize. lia.
  - by apply elem_of_nil in Hin.
Qed.
End singleton.

(** C3. On a dataset with a one-cell group B, beside a two-cell group A:
    with [inplace=False], [ithgex] and [ithcna] return a mapping that has a
    score for A and no entry for B; with [inplace=True] they raise
    [KeyError] for B instead of leaving the cell of B unwritten, and the
    cells of A do not receive their score either: no column is added. *)
Theorem ith_singleton_group_inplace_raises pearson heap :
  let gex := ithgex choose_mtx_rep_spec pearson heap "patient" None None in
  let cna := ithcna pearson heap "patient" "X_cnv" "ithgex" in
  (∃ d, gex false "ithgex" with_singleton
        = mk_outcome (Ok (Some d)) with_singleton []
      ∧ d !! VStr "B" = None ∧ is_Some (d !! VStr "A"))
  ∧ (∃ d, cna false with_singleton = mk_outcome (Ok (Some d)) with_singleton []
        ∧ d !! VStr "B" = None ∧ is_Some (d !! VStr "A"))
  ∧ gex true "ithgex" with_singleton
    = mk_outcome (Raise (KeyError (VStr "B"))) with_singleton []
  ∧ cna true with_singleton
    = mk_outcome (Raise (KeyError (VStr "B"))) with_singleton []
  ∧ obs with_singleton !! "ithgex" = None.
Proof.
  intros gex cna. unfold gex, cna. clear gex cna.
  assert (wf_adata with_singleton) as Hwf
    by (apply (bool_decide_unpack _); vm_compute; exact I).
  pose proof (choose_mtx_rep_spec_default_aligned with_singleton
                [VStr "A"; VStr "A"; VStr "B"] Hwf) as Hgex.
  assert (source_aligned (λ tmp, getitem (obsm tmp) "X_cnv") with_singleton
            [VStr "A"; VStr "A"; VStr "B"]) as Hcna.
  { eapply obsm_source_aligned; [reflexivity|done]. }
  split_and!.
  - rewrite ithgex_algorithm. by apply with_singleton_mapping.
  - rewrite ithcna_algorithm. by apply with_singleton_mapping.
  - rewrite ithgex_algorithm. by apply with_singleton_KeyError.
  - rewrite ithcna_algorithm. by apply with_singleton_KeyError.
  - done.
Qed.

(** ** Missing columns, missing representations, no cells *)

(** The outcome of [cnv_score] in closed form, case by case. *)

Lemma cnv_score_no_column adata groupby use_rep key_added inplace :
  obs adata !! groupby = None →
  cnv_score groupby use_rep key_added inplace None adata
  = mk_outcome
      (Raise (if decide (groupby = "cnv_leiden") then cnv_leiden_not_found
              else KeyError (VStr groupby)))
      adata [].
Proof.
  intros Hobs. unfold cnv_score. run. rewrite Hobs.
  rewrite bool_decide_eq_false_2 by (by intros [? ?]). cbn [negb andb].
  case_bool_decide; case_decide; try done. apply bind_raises. eauto with run.
Qed.

Lemma cnv_score_no_cells adata groupby use_rep key_added inplace :
  obs adata !! groupby = Some [] →
  cnv_score groupby use_rep key_added inplace None adata
  = if inplace then mk_outcome (Ok None) (set_obs adata key_added []) []
    else mk_outcome (Ok (Some ∅)) adata [].
Proof.
  intros Hobs. unfold cnv_score. run.
  rewrite Hobs, bool_decide_eq_true_2 by done. cbn [negb andb]. run.
  rewrite (bind_returns _ _ _ ∅) by done. destruct inplace; [|done]. by run.
Qed.

Lemma cnv_score_no_rep adata groupby use_rep key_added inplace labels :
  obs adata !! groupby = Some labels →
  labels ≠ [] →
  obsm adata !! ("X_" +:+ use_rep) = None →
  cnv_score groupby use_rep key_added inplace None adata
  = mk_outcome (Raise (KeyError (VStr ("X_" +:+ use_rep)))) adata [].
Proof.
  intros Hobs Hne Hrep. destruct labels as [|l labels]; [done|].
  unfold cnv_score. run. rewrite Hobs, bool_decide_eq_true_2 by done.
  cbn [negb andb]. run.
  apply bind_raises. simpl. apply bind_raises, bind_raises. eauto with run.
Qed.

(** The outcomes of [cnv_score]: an exception and the dataset untouched, the
    mapping and the dataset untouched, or the column written. *)
Lemma cnv_score_cases adata groupby use_rep key_added inplace :
  let o := cnv_score groupby use_rep key_added inplace None adata in
  (∃ e, o = mk_outcome (Raise e) adata [])
  ∨ (∃ d, inplace = false ∧ o = mk_outcome (Ok (Some d)) adata [])
  ∨ (∃ arr, inplace = true
       ∧ o = mk_outcome (Ok None) (set_obs adata key_added arr) []).
Proof.
  intros o. unfold o.
  destruct (obs adata !! groupby) as [labels|] eqn:Hobs.
  2:{ left. eexists. by apply cnv_score_no_column. }
  destruct (decide (labels = [])) as [->|Hne].
  { rewrite cnv_score_no_cells by done. destruct inplace; right; eauto. }
  destruct (obsm adata !! ("X_" +:+ use_rep)) as [rep|] eqn:Hrep.
  2:{ left. eexists. by eapply cnv_score_no_rep. }
  rewrite (cnv_score_run _ _ _ _ _ _ _ Hobs Hrep). destruct inplace; right; eauto.
Qed.

Section closed.
Context (source : AnnData → res mtx) (message : nat → list nat → string).
Context (pearson : list Qc → list Qc → Qc) (heap : nat → Qc).

Lemma ith_algorithm_no_column adata groupby inplace key_added :
  obs adata !! groupby = None →
  ith_algorithm source message pearson heap groupby inplace key_added adata
  = mk_outcome (Raise (KeyError (VStr groupby))) adata [].
Proof. intros Hobs. unfold ith_algorithm. apply bind_raises. eauto with run. Qed.

Lemma ith_algorithm_no_cells adata groupby inplace key_added :
  obs adata !! groupby = Some [] →
  ith_algorithm source message pearson heap groupby inplace key_added adata
  = if inplace
    then mk_outcome (Ok None)
           (set_obs adata key_added (np_empty heap (n_obs adata))) []
    else mk_outcome (Ok (Some ∅)) adata [].
Proof.
  intros Hobs. rewrite (ith_algorithm_unfold _ _ _ _ _ _ _ _ [] Hobs).
  cbn [unique for_each]. rewrite (bind_returns _ _ _ ∅) by apply returns_ret.
  destruct inplace; [|done]. by run.
Qed.

Lemma ith_algorithm_first_raises adata groupby inplace key_added labels group e :
  obs adata !! groupby = Some labels →
  head labels = Some group →
  source (group_view adata labels group) = Raise e →
  ith_algorithm source message pearson heap groupby inplace key_added adata
  = mk_outcome (Raise e) adata [].
Proof.
  intros Hobs Hhead Hsrc. rewrite (ith_algorithm_unfold _ _ _ _ _ _ _ _ _ Hobs).
  destruct labels as [|l labels]; simplify_eq/=.
  apply bind_raises, bind_raises. by eapply ith_group_source_raises.
Qed.

(** The outcomes of the algorithm, whatever [inplace]. *)
Lemma ith_algorithm_cases adata groupby inplace key_added :
  let o := ith_algorithm source message pearson heap groupby inplace key_added
             adata in
  (∃ e, o = mk_outcome (Raise e) adata [])
  ∨ (∃ d, inplace = false ∧ o = mk_outcome (Ok (Some d)) adata [])
  ∨ (∃ arr, inplace = true
       ∧ o = mk_outcome (Ok None) (set_obs adata key_added arr) []).
Proof.
  intros o. unfold o. destruct inplace.
  - destruct (ith_algorithm_inplace_cases source message pearson heap groupby
                key_added adata) as [[e He]|(labels & d & _ & _ & _ & Ho)];
      [left|right; right]; eauto.
  - destruct (obs adata !! groupby) as [labels|] eqn:Hobs.
    2:{ left. eexists. by apply ith_algorithm_no_column. }
    rewrite (ith_algorithm_unfold _ _ _ _ _ _ _ _ _ Hobs).
    destruct (readonly_for_each (unique labels)
                (ith_group source message pearson groupby) ∅) with (adata := adata)
      as [[scores|e] Hr].
    { intros ? ?. apply ith_group_readonly. }
    + right; left. exists scores. split; [done|]. by rewrite (bind_returns _ _ _ _ Hr).
    + left. exists e. by apply bind_raises.
Qed.

End closed.

(** X2. When the grouping column is not in [adata.obs], [ithgex] and
    [ithcna] raise [KeyError] for its name, whatever the name, and
    [cnv_score] does so for every name but "cnv_leiden", for which it raises
    its [ValueError]; this holds whatever the other arguments and the rest of
    the dataset are, the dataset is left as it was and nothing is warned. *)
Theorem missing_grouping_column chooser pearson heap adata groupby cnv_rep use_rep
    use_raw layer key_added inplace :
  obs adata !! groupby = None →
  cnv_score groupby cnv_rep key_added inplace None adata
  = mk_outcome
      (Raise (if decide (groupby = "cnv_leiden") then cnv_leiden_not_found
              else KeyError (VStr groupby)))
      adata []
  ∧ ithgex chooser pearson heap groupby use_raw layer inplace key_added adata
    = mk_outcome (Raise (KeyError (VStr groupby))) adata []
  ∧ ithcna pearson heap groupby use_rep key_added inplace adata
    = mk_outcome (Raise (KeyError (VStr groupby))) adata [].
Proof.
  intros Hobs. split; [by apply cnv_score_no_column|].
  rewrite ithgex_algorithm, ithcna_algorithm.
  split; by apply ith_algorithm_no_column.
Qed.

Lemma missing_grouping_column_witness :
  cnv_score "cnv_leiden" "cnv" "score" true None two_groups
  = mk_outcome (Raise cnv_leiden_not_found) two_groups []
  ∧ ithgex choose_mtx_rep_spec example_pearson example_heap "cnv_leiden" None None
      true "score" two_groups
    = mk_outcome (Raise (KeyError (VStr "cnv_leiden"))) two_groups []
  ∧ ithcna example_pearson example_heap "cnv_leiden" "X_cnv" "score" true
      two_groups
    = mk_outcome (Raise (KeyError (VStr "cnv_leiden"))) two_groups [].
Proof.
  apply (missing_grouping_column choose_mtx_rep_spec example_pearson
           example_heap two_groups "cnv_leiden" "cnv" "X_cnv" None None "score"
           true).
  reflexivity.
Defined.

(** X3. With a grouping column that has at least one cell: [cnv_score]
    raises [KeyError] for "X_" followed by [use_rep] when [adata.obsm] lacks
    that key, [ithcna] raises [KeyError] for [use_rep] itself when
    [adata.obsm] lacks it, and [ithgex] passes on the exception that
    [_choose_mtx_rep] raises for the first group; in each case the dataset is
    left as it was, also with [inplace=True]. *)
Theorem missing_representation chooser pearson heap adata groupby use_rep use_raw
    layer key_added inplace labels :
  obs adata !! groupby = Some labels →
  labels ≠ [] →
  (obsm adata !! ("X_" +:+ use_rep) = None →
   cnv_score groupby use_rep key_added inplace None adata
   = mk_outcome (Raise (KeyError (VStr ("X_" +:+ use_rep)))) adata [])
  ∧ (obsm adata !! use_rep = None →
     ithcna pearson heap groupby use_rep key_added inplace adata
     = mk_outcome (Raise (KeyError (VStr use_rep))) adata [])
  ∧ (∀ group e,
       head labels = Some group →
       chooser (group_view adata labels group) use_raw layer = Raise e →
       ithgex chooser pearson heap groupby use_raw layer inplace key_added adata
       = mk_outcome (Raise e) adata []).
Proof.
  intros Hobs Hne. split_and!.
  - intros Hrep. by eapply cnv_score_no_rep.
  - intros Hrep. rewrite ithcna_algorithm. destruct labels as [|l labels]; [done|].
    eapply ith_algorithm_first_raises; [done..|].
    unfold getitem, group_view. simpl. by rewrite lookup_fmap, Hrep.
  - intros group e Hhead He. rewrite ithgex_algorithm.
    by eapply ith_algorithm_first_raises.
Qed.

Lemma missing_representation_witness :
  cnv_score "patient" "pca" "score" true None two_groups
  = mk_outcome (Raise (KeyError (VStr "X_pca"))) two_groups []
  ∧ ithcna example_pearson example_heap "patient" "pca" "score" true two_groups
    = mk_outcome (Raise (KeyError (VStr "pca"))) two_groups []
  ∧ ithgex choose_mtx_rep_spec example_pearson example_heap "patient" None
      (Some "counts") true "score" two_groups
    = mk_outcome (Raise (KeyError (VStr "counts"))) two_groups [].
Proof.
  destruct (missing_representation choose_mtx_rep_spec example_pearson
              example_heap two_groups "patient" "pca" None (Some "counts")
              "score" true [VStr "P1"; VStr "P2"; VStr "P1"; VStr "P2"])
    as (H1 & H2 & H3); [reflexivity|discriminate|].
  split_and!; [apply H1|apply H2|apply (H3 (VStr "P1"))]; reflexivity.
Defined.

(** X4. When the grouping column exists and the dataset has no cell, no
    group is scored and [adata.obsm] is not consulted: with [inplace=False]
    the three functions return the empty mapping, and with [inplace=True]
    they write an empty column [key_added] and return [None] ([ithgex] and
    [ithcna] allocate one entry per cell, none on a well-formed dataset). *)
Theorem no_cells_no_scores chooser pearson heap adata groupby cnv_rep use_rep
    use_raw layer key_added :
  obs adata !! groupby = Some [] →
  (cnv_score groupby cnv_rep key_added false None adata
   = mk_outcome (Ok (Some ∅)) adata []
   ∧ cnv_score groupby cnv_rep key_added true None adata
     = mk_outcome (Ok None) (set_obs adata key_added []) [])
  ∧ (ithgex chooser pearson heap groupby use_raw layer false key_added adata
     = mk_outcome (Ok (Some ∅)) adata []
     ∧ ithcna pearson heap groupby use_rep key_added false adata
       = mk_outcome (Ok (Some ∅)) adata [])
  ∧ (wf_adata adata →
     ithgex chooser pearson heap groupby use_raw layer true key_added adata
     = mk_outcome (Ok None) (set_obs adata key_added []) []
     ∧ ithcna pearson heap groupby use_rep key_added true adata
       = mk_outcome (Ok None) (set_obs adata key_added []) []).
Proof.
  intros Hobs. split; [|split].
  - split; by rewrite cnv_score_no_cells.
  - rewrite ithgex_algorithm, ithcna_algorithm.
    split; by rewrite ith_algorithm_no_cells.
  - intros Hwf. rewrite ithgex_algorithm, ithcna_algorithm.
    rewrite !ith_algorithm_no_cells by done.
    by rewrite <-(wf_adata_length_obs _ _ _ Hwf Hobs).
Qed.

Lemma wf_no_cells : wf_adata no_cells.
Proof. by_evaluation. Defined.

Lemma no_cells_no_scores_witness :
  cnv_score "patient" "cnv" "score" true None no_cells
  = mk_outcome (Ok None) (set_obs no_cells "score" []) []
  ∧ ithgex choose_mtx_rep_spec example_pearson example_heap "patient" None None
      true "score" no_cells
    = mk_outcome (Ok None) (set_obs no_cells "score" []) []
  ∧ ithcna example_pearson example_heap "patient" "X_cnv" "score" true no_cells
    = mk_outcome (Ok None) (set_obs no_cells "score" []) [].
Proof.
  destruct (no_cells_no_scores choose_mtx_rep_spec example_pearson example_heap
              no_cells "patient" "cnv" "X_cnv" None None "score")
    as ([_ H1] & _ & H2); [reflexivity|].
  split; [exact H1|]. apply H2, wf_no_cells.
Defined.

(** ** What a call writes *)

Lemma same_but_column_refl adata key : same_but_column adata adata key.
Proof. by repeat split. Qed.

Lemma same_but_column_set_obs adata key arr :
  same_but_column adata (set_obs adata key arr) key.
Proof.
  repeat split. intros k Hk. simpl. by rewrite lookup_insert_ne.
Qed.

(** X5. Whatever the arguments and the dataset, a call of [cnv_score],
    [ithgex] or [ithcna] changes at most the column [key_added] of
    [adata.obs]: names, matrices, [obsm] and every other column are as
    before. When the call raises, or returns a mapping, the dataset is
    exactly as before; it returns [None] only with [inplace=True], and the
    column [key_added] then holds numbers. *)
Theorem only_key_added_is_written chooser pearson heap adata groupby cnv_rep
    use_rep use_raw layer key_added inplace obs_key :
  writes_at_most adata key_added inplace
    (cnv_score groupby cnv_rep key_added inplace obs_key adata)
  ∧ writes_at_most adata key_added inplace
      (ithgex chooser pearson heap groupby use_raw layer inplace key_added adata)
  ∧ writes_at_most adata key_added inplace
      (ithcna pearson heap groupby use_rep key_added inplace adata).
Proof.
  assert (∀ o : outcome (option (gmap obsval Qc)),
    (∃ e, o = mk_outcome (Raise e) adata [])
    ∨ (∃ d, inplace = false ∧ o = mk_outcome (Ok (Some d)) adata [])
    ∨ (∃ arr, inplace = true
         ∧ o = mk_outcome (Ok None) (set_obs adata key_added arr) []) →
    ∀ o', result o' = result o → after o' = after o →
      writes_at_most adata key_added inplace o') as Hframe.
  { intros o Ho o' Hr Ha. unfold writes_at_most. rewrite Hr, Ha.
    destruct Ho as [[e ->]|[(d & -> & ->)|(arr & -> & ->)]]; simpl.
    - split; [apply same_but_column_refl|done].
    - split; [apply same_but_column_refl|done].
    - split; [apply same_but_column_set_obs|]. split; [done|].
      exists arr. simpl. by rewrite lookup_insert_eq. }
  split; [|split].
  - destruct (cnv_score_default_groupby groupby cnv_rep key_added inplace obs_key
                adata) as [Hr Ha].
    eapply Hframe; [apply cnv_score_cases|done..].
  - rewrite ithgex_algorithm. eapply Hframe; [apply ith_algorithm_cases|done..].
  - rewrite ithcna_algorithm. eapply Hframe; [apply ith_algorithm_cases|done..].
Qed.

(** X6. [cnv_score] called with [obs_key] behaves as [cnv_score] called
    with [groupby] set to that value and no [obs_key]: the [groupby] argument
    is ignored, and the only difference is the one deprecation warning.
    Without [obs_key] it emits no warning, and [ithgex] and [ithcna] never
    emit one. *)
Theorem obs_key_replaces_groupby chooser pearson heap adata groupby use_rep
    use_raw layer key_added inplace :
  (∀ obs_key,
     cnv_score groupby use_rep key_added inplace obs_key adata
     = let o := cnv_score (default groupby obs_key) use_rep key_added inplace None
                  adata in
       mk_outcome (result o) (after o) (obs_key_warnings obs_key))
  ∧ warned (ithgex chooser pearson heap groupby use_raw layer inplace key_added
              adata) = []
  ∧ warned (ithcna pearson heap groupby use_rep key_added inplace adata) = [].
Proof.
  assert (∀ g, warned (cnv_score g use_rep key_added inplace None adata) = [])
    as Hquiet.
  { intros g.
    by destruct (cnv_score_cases adata g use_rep key_added inplace)
      as [[e ->]|[(d & _ & ->)|(arr & _ & ->)]]. }
  split; [|split].
  - intros [g|]; cbn [default from_option obs_key_warnings]; cbv zeta.
    + by rewrite cnv_score_obs_key; cbv zeta; rewrite Hquiet.
    + specialize (Hquiet groupby).
      by destruct (cnv_score groupby use_rep key_added inplace None adata);
        simplify_eq/=.
  - rewrite ithgex_algorithm.
    by destruct (ith_algorithm_cases (λ tmp, chooser tmp use_raw layer)
                   ithgex_message pearson heap adata groupby inplace key_added)
      as [[e ->]|[(d & _ & ->)|(arr & _ & ->)]].
  - rewrite ithcna_algorithm.
    by destruct (ith_algorithm_cases (λ tmp, getitem (obsm tmp) use_rep)
                   ithcna_message pearson heap adata groupby inplace key_added)
      as [[e ->]|[(d & _ & ->)|(arr & _ & ->)]].
Qed.

(** ** The range of the scores *)



















(** What holds of every interquartile range of a full correlation array
    holds of every score the loop stores. *)
Section values.
Context (source : AnnData → res mtx) (message : nat → list nat → string).
Context (pearson : list Qc → list Qc → Qc) (heap : nat → Qc).
Context (Q : Qc → Prop).
Context (HQ : ∀ X, (2 ≤ shape0 X)%nat →
  Q (iqr (mk_ndarray [shape0 X; shape0 X] (full_corr pearson (dense_rows X))))).





End values.








(** ** Which groups get a score *)

Lemma group_size_not_elem_of labels group :
  group ∉ labels → group_size labels group = 0%nat.
Proof.
  intros Hnot. destruct (group_size labels group) as [|n] eqn:Hn; [done|].
  destruct Hnot. apply group_size_elem_of. lia.
Qed.

Section domain.
Context (source : AnnData → res mtx) (message : nat → list nat → string).
Context (pearson : list Qc → list Qc → Qc) (heap : nat → Qc).
Context (adata : AnnData) (groupby : string) (labels : list obsval).
Context (Hobs : obs adata !! groupby = Some labels).
Context (Hlen : length labels = n_obs adata).
Context (Hsrc : source_aligned source adata labels).

Lemma ith_scores_is_Some group :
  is_Some (ith_scores source pearson adata labels !! group)
  ↔ (2 ≤ group_size labels group)%nat.
Proof using Hlen Hsrc.
  destruct (decide (group ∈ labels)) as [Hin|Hnot].
  - pose proof (ith_scores_lookup_None source pearson adata labels Hlen Hsrc
                  group Hin) as Hnone.
    rewrite <-not_eq_None_Some. rewrite Hnone. lia.
  - rewrite lookup_ith_scores, decide_False by done.
    rewrite group_size_not_elem_of by done. split; [by intros [? ?]|lia].
Qed.

Lemma ith_algorithm_domain key_added :
  (∃ d, ith_algorithm source message pearson heap groupby false key_added adata
        = mk_outcome (Ok (Some d)) adata []
      ∧ ∀ group, is_Some (d !! group) ↔ (2 ≤ group_size labels group)%nat)
  ∧ ((∃ r, result (ith_algorithm source message pearson heap groupby true
                     key_added adata) = Ok r)
     ↔ ∀ group, group ∈ labels → (2 ≤ group_size labels group)%nat).
Proof using Hobs Hlen Hsrc.
  split.
  - eexists. split; [by apply ith_algorithm_returns|]. apply ith_scores_is_Some.
  - split.
    + intros [r Hr] group Hin.
      destruct (ith_algorithm_inplace_cases source message pearson heap groupby
                  key_added adata) as [[e He]|(labels' & d & Hobs' & Hd & Hall & _)].
      { by rewrite He in Hr. }
      rewrite Hobs in Hobs'. injection Hobs' as <-.
      rewrite (ith_algorithm_returns source message pearson heap adata groupby
                 labels Hobs key_added Hsrc) in Hd.
      injection Hd as <-. by apply ith_scores_is_Some, Hall.
    + intros Hall. exists None.
      rewrite (ith_algorithm_inplace source message pearson heap adata groupby
                 labels Hobs key_added Hsrc Hlen); [done|].
      intros group Hin. by apply ith_scores_is_Some, Hall.
Qed.

End domain.

(** X8. On a well-formed dataset whose scoring loop meets no error, the
    mapping of [ithgex] and of [ithcna] has an entry exactly for the groups of
    two cells or more, and the call with [inplace=True] returns exactly when
    every group has two cells or more. *)
Theorem ith_scored_groups chooser pearson heap adata groupby use_raw layer use_rep
    key_added labels :
  wf_adata adata →
  obs adata !! groupby = Some labels →
  let scored (f : bool → M (option (gmap obsval Qc))) :=
    (∃ d, f false adata = mk_outcome (Ok (Some d)) adata []
        ∧ ∀ group, is_Some (d !! group) ↔ (2 ≤ group_size labels group)%nat)
    ∧ ((∃ r, result (f true adata) = Ok r)
       ↔ ∀ group, group ∈ labels → (2 ≤ group_size labels group)%nat) in
  (source_aligned (λ tmp, chooser tmp use_raw layer) adata labels →
   scored (λ inplace,
     ithgex chooser pearson heap groupby use_raw layer inplace key_added))
  ∧ (is_Some (obsm adata !! use_rep) →
     scored (λ inplace, ithcna pearson heap groupby use_rep key_added inplace)).
Proof.
  intros Hwf Hobs scored.
  pose proof (wf_adata_length_obs _ _ _ Hwf Hobs) as Hlen. split.
  - intros Hsrc. unfold scored. rewrite !ithgex_algorithm.
    by apply ith_algorithm_domain.
  - intros [rep Hrep]. unfold scored. rewrite !ithcna_algorithm.
    apply ith_algorithm_domain; [done..|].
    eapply obsm_source_aligned; [done|]. by eapply wf_adata_shape0_obsm.
Qed.

Lemma ith_scored_groups_witness :
  (∃ r, result (ithgex choose_mtx_rep_spec example_pearson example_heap "patient"
                  None None true "ithgex" two_groups) = Ok r)
  ∧ ¬ (∃ r, result (ithcna example_pearson example_heap "patient" "X_cnv"
                      "ithcna" true with_singleton) = Ok r).
Proof.
  split.
  - destruct (ith_scored_groups choose_mtx_rep_spec example_pearson example_heap
                two_groups "patient" None None "X_cnv" "ithgex"
                [VStr "P1"; VStr "P2"; VStr "P1"; VStr "P2"] wf_two_groups)
      as [[_ H] _]; [reflexivity| |].
    + apply choose_mtx_rep_spec_default_aligned, wf_two_groups.
    + apply H. intros group Hin.
      repeat (apply elem_of_cons in Hin as [->|Hin]; [vm_compute; lia|]).
      by apply elem_of_nil in Hin.
  - destruct (ith_scored_groups choose_mtx_rep_spec example_pearson example_heap
                with_singleton "patient" None None "X_cnv" "ithcna"
                [VStr "A"; VStr "A"; VStr "B"] wf_with_singleton)
      as [_ [_ H]]; [reflexivity|by eexists|].
    intros Hr. pose proof (proj1 H Hr (VStr "B")) as HB.
    assert (group_size [VStr "A"; VStr "A"; VStr "B"] (VStr "B") = 1%nat) as E
      by reflexivity.
    rewrite E in HB. assert (2 ≤ 1)%nat as Habs; [|lia].
    apply HB. do 2 right. left.
Defined.

(** ** The order of the cells and the storage of the matrix *)

Lemma select_series_eq_zip {A} labels (rows : list A) group :
  select (series_eq labels group) rows
  = (filter (λ p, p.1 = group) (zip labels rows)).*2.
Proof.
  revert rows. induction labels as [|l labels IH]; intros [|r rows]; try done.
  simpl. rewrite filter_cons. simpl.
  case_bool_decide; case_decide; try done; simpl; by rewrite IH.
Qed.

Lemma group_rows_cells labels m group :
  group_rows labels m group = (filter (λ p, p.1 = group) (cells labels m)).*2.
Proof. apply select_series_eq_zip. Qed.

Lemma group_rows_Permutation labels m labels' m' group :
  cells labels m ≡ₚ cells labels' m' →
  group_rows labels m group ≡ₚ group_rows labels' m' group.
Proof. intros H. rewrite !group_rows_cells. by rewrite H. Qed.

Lemma elem_of_labels_Permutation labels m labels' m' group :
  length labels = shape0 m → length labels' = shape0 m' →
  cells labels m ≡ₚ cells labels' m' →
  group ∈ labels ↔ group ∈ labels'.
Proof.
  intros Hlen Hlen' H.
  rewrite <-(fst_zip labels (dense_rows m)) by (rewrite length_dense_rows; lia).
  rewrite <-(fst_zip labels' (dense_rows m')) by (rewrite length_dense_rows; lia).
  unfold cells in H. by rewrite H.
Qed.

Lemma concat_Permutation {A} (ls ls' : list (list A)) :
  ls ≡ₚ ls' → concat ls ≡ₚ concat ls'.
Proof.
  induction 1 as [|x l l' _ IH|x y l|l l' l'' _ IH1 _ IH2]; simpl.
  - done.
  - by rewrite IH.
  - by rewrite !(assoc_L (++)), (comm (++) y x).
  - by etrans.
Qed.

Lemma sum_Qc_Permutation l l' : l ≡ₚ l' → sum_Qc l = sum_Qc l'.
Proof.
  induction 1 as [|x l l' _ IH|x y l|l l' l'' _ IH1 _ IH2]; simpl.
  - done.
  - by rewrite IH.
  - ring.
  - by etrans.
Qed.

Lemma mean_abs_Permutation rows rows' :
  rows ≡ₚ rows' → mean_abs rows = mean_abs rows'.
Proof.
  intros H. apply concat_Permutation in H. unfold mean_abs.
  rewrite (sum_Qc_Permutation (Qcabs <$> concat rows) (Qcabs <$> concat rows'))
    by (by rewrite H).
  by rewrite (Permutation_length H).
Qed.

Lemma cnv_cluster_score_mean_abs labels rep cluster :
  wf_mtx rep →
  cnv_cluster_score labels rep cluster = mean_abs (group_rows labels rep cluster).
Proof.
  intros Hwf. unfold cnv_cluster_score, group_rows.
  rewrite np_mean_abs by by apply wf_mtx_getitem_rows.
  by rewrite dense_rows_getitem_rows.
Qed.

Lemma bind_Permutation_ext {A B} (f g : A → list B) (l l' : list A) :
  (∀ x, f x ≡ₚ g x) → l ≡ₚ l' → l ≫= f ≡ₚ l' ≫= g.
Proof.
  intros Hfg Hl. rewrite Hl. clear Hl l.
  induction l' as [|x l IH]; [done|]. simpl. by rewrite Hfg, IH.
Qed.

Lemma full_corr_Permutation pearson rows rows' :
  rows ≡ₚ rows' → full_corr pearson rows ≡ₚ full_corr pearson rows'.
Proof.
  intros H. unfold full_corr. apply bind_Permutation_ext; [|done].
  intros ri. by apply bind_Permutation_ext.
Qed.

Lemma merge_sort_Permutation_eq (l l' : list Qc) :
  l ≡ₚ l' → merge_sort Qcle l = merge_sort Qcle l'.
Proof.
  intros H. apply (StronglySorted_unique Qcle).
  - apply StronglySorted_merge_sort; apply _.
  - apply StronglySorted_merge_sort; apply _.
  - by rewrite !merge_sort_Permutation.
Qed.

Lemma np_percentile_Permutation a a' q :
  data a ≡ₚ data a' → np_percentile a q = np_percentile a' q.
Proof. intros H. unfold np_percentile. by rewrite (merge_sort_Permutation_eq _ _ H). Qed.

Lemma ith_score_Permutation pearson X X' :
  dense_rows X ≡ₚ dense_rows X' → ith_score pearson X = ith_score pearson X'.
Proof.
  intros H. unfold ith_score. rewrite <-!length_dense_rows.
  rewrite (Permutation_length H). case_bool_decide; [done|]. f_equal.
  unfold iqr. f_equal; apply np_percentile_Permutation; simpl;
    by apply full_corr_Permutation.
Qed.

(** X9. The mapping of [ithcna] depends only on the collection of cells,
    each a label with its dense row of the representation: two well-formed
    datasets that hold the same cells, in any order and with the matrix
    stored dense or sparse, get the same result. *)
Theorem ithcna_cell_order pearson heap adata adata' groupby use_rep key_added
    labels labels' rep rep' :
  wf_adata adata → wf_adata adata' →
  obs adata !! groupby = Some labels → obsm adata !! use_rep = Some rep →
  obs adata' !! groupby = Some labels' → obsm adata' !! use_rep = Some rep' →
  cells labels rep ≡ₚ cells labels' rep' →
  result (ithcna pearson heap groupby use_rep key_added false adata)
  = result (ithcna pearson heap groupby use_rep key_added false adata').
Proof.
  intros Hwf Hwf' Hobs Hrep Hobs' Hrep' Hcells. rewrite ithcna_algorithm.
  pose proof (wf_adata_shape0_obsm _ _ _ Hwf Hrep) as Hn.
  pose proof (wf_adata_shape0_obsm _ _ _ Hwf' Hrep') as Hn'.
  pose proof (wf_adata_length_obs _ _ _ Hwf Hobs) as Hlen.
  pose proof (wf_adata_length_obs _ _ _ Hwf' Hobs') as Hlen'.
  rewrite (ith_algorithm_returns _ _ _ _ adata groupby labels Hobs)
    by by eapply obsm_source_aligned.
  rewrite (ith_algorithm_returns _ _ _ _ adata' groupby labels' Hobs')
    by by eapply obsm_source_aligned.
  simpl. do 2 f_equal. apply map_eq. intros k. rewrite !lookup_ith_scores.
  assert (k ∈ labels ↔ k ∈ labels') as Hk.
  { eapply elem_of_labels_Permutation; [| |done]; congruence. }
  destruct (decide (k ∈ labels)), (decide (k ∈ labels')); [|tauto..|done].
  unfold ith_score_of.
  rewrite (obsm_group_view _ _ _ _ _ Hrep), (obsm_group_view _ _ _ _ _ Hrep').
  apply ith_score_Permutation. rewrite !dense_rows_getitem_rows.
  by apply group_rows_Permutation.
Qed.

Lemma two_groups_cells :
  cells [VStr "P1"; VStr "P2"; VStr "P1"; VStr "P2"]
    (Sparse 3 [[(0%nat, Q2Qc 0.1); (2%nat, Q2Qc (-0.2))];
               [(1%nat, Q2Qc 0.3)]; []; [(0%nat, Q2Qc 1.0)]])
  ≡ₚ cells [VStr "P2"; VStr "P2"; VStr "P1"; VStr "P1"]
       (Dense 3 [[Q2Qc 1.0; Q2Qc 0.0; Q2Qc 0.0]; [Q2Qc 0.0; Q2Qc 0.3; Q2Qc 0.0];
                 [Q2Qc 0.1; Q2Qc 0.0; Q2Qc (-0.2)]; [Q2Qc 0.0; Q2Qc 0.0; Q2Qc 0.0]]).
Proof. by_evaluation. Defined.

Lemma wf_two_groups_reordered : wf_adata two_groups_reordered.
Proof. by_evaluation. Defined.

Lemma ithcna_cell_order_witness :
  result (ithcna example_pearson example_heap "patient" "X_cnv" "ithcna" false
            two_groups)
  = result (ithcna example_pearson example_heap "patient" "X_cnv" "ithcna" false
              two_groups_reordered).
Proof.
  eapply (ithcna_cell_order example_pearson example_heap two_groups
            two_groups_reordered "patient" "X_cnv" "ithcna").
  - exact wf_two_groups.
  - exact wf_two_groups_reordered.
  - reflexivity.
  - reflexivity.
  - reflexivity.
  - reflexivity.
  - exact two_groups_cells.
Defined.

(** X10. The mapping of [cnv_score] depends only on the collection of
    cells, each a label with its dense row of the representation: two
    well-formed datasets that hold the same cells, in any order and with the
    matrix stored dense or sparse, get the same result (sums are exact here;
    in binary64 they agree up to rounding). *)
Theorem cnv_score_cell_order adata adata' groupby use_rep key_added labels labels'
    rep rep' :
  wf_adata adata → wf_adata adata' →
  obs adata !! groupby = Some labels →
  obsm adata !! ("X_" +:+ use_rep) = Some rep →
  obs adata' !! groupby = Some labels' →
  obsm adata' !! ("X_" +:+ use_rep) = Some rep' →
  cells labels rep ≡ₚ cells labels' rep' →
  result (cnv_score groupby use_rep key_added false None adata)
  = result (cnv_score groupby use_rep key_added false None adata').
Proof.
  intros Hwf Hwf' Hobs Hrep Hobs' Hrep' Hcells.
  rewrite (cnv_score_run _ _ _ _ _ _ _ Hobs Hrep).
  rewrite (cnv_score_run _ _ _ _ _ _ _ Hobs' Hrep'). simpl. do 2 f_equal.
  assert (wf_mtx rep ∧ shape0 rep = n_obs adata) as [Hm Hn].
  { destruct Hwf as (_ & _ & _ & H & _). apply (H _ _ Hrep). }
  assert (wf_mtx rep' ∧ shape0 rep' = n_obs adata') as [Hm' Hn'].
  { destruct Hwf' as (_ & _ & _ & H & _). apply (H _ _ Hrep'). }
  pose proof (wf_adata_length_obs _ _ _ Hwf Hobs) as Hlen.
  pose proof (wf_adata_length_obs _ _ _ Hwf' Hobs') as Hlen'.
  apply map_eq. intros k. rewrite !lookup_collect, !lookup_empty. simpl.
  assert (k ∈ unique labels ↔ k ∈ unique labels') as Hk.
  { rewrite !elem_of_unique.
    eapply elem_of_labels_Permutation; [| |done]; congruence. }
  destruct (decide (k ∈ unique labels)), (decide (k ∈ unique labels'));
    [|tauto..|done].
  f_equal. rewrite !cnv_cluster_score_mean_abs by done.
  by apply mean_abs_Permutation, group_rows_Permutation.
Qed.

Lemma cnv_score_cell_order_witness :
  result (cnv_score "patient" "cnv" "cnv_score" false None two_groups)
  = result (cnv_score "patient" "cnv" "cnv_score" false None two_groups_reordered).
Proof.
  eapply (cnv_score_cell_order two_groups two_groups_reordered "patient" "cnv"
            "cnv_score").
  - exact wf_two_groups.
  - exact wf_two_groups_reordered.
  - reflexivity.
  - reflexivity.
  - reflexivity.
  - reflexivity.
  - exact two_groups_cells.
Defined.

(** ** What a call reads *)

Lemma for_each_congr {A S} (xs : list A) (body : A → S → M S) acc adata adata' :
  (∀ x acc, readonly (body x acc)) →
  (∀ x acc, result (body x acc adata') = result (body x acc adata)) →
  result (for_each xs body acc adata') = result (for_each xs body acc adata).
Proof.
  intros Hro Hbody. revert acc. induction xs as [|x xs IH]; intros acc; [done|].
  simpl. specialize (Hbody x acc).
  destruct (Hro x acc adata) as [r Hr], (Hro x acc adata') as [r' Hr'].
  rewrite Hr, Hr' in Hbody. simpl in Hbody. subst r'. destruct r as [acc1|e].
  - rewrite (bind_returns _ _ _ acc1 Hr), (bind_returns _ _ _ acc1 Hr'). apply IH.
  - by rewrite (bind_raises _ _ _ e Hr), (bind_raises _ _ _ e Hr').
Qed.

Lemma cnv_score_congr adata adata' groupby use_rep key_added inplace :
  obs adata' !! groupby = obs adata !! groupby →
  obsm adata' !! ("X_" +:+ use_rep) = obsm adata !! ("X_" +:+ use_rep) →
  same_effect adata adata' key_added
    (cnv_score groupby use_rep key_added inplace None adata)
    (cnv_score groupby use_rep key_added inplace None adata').
Proof.
  intros Hobs Hobsm. destruct (obs adata !! groupby) as [labels|] eqn:Ho.
  2:{ rewrite !cnv_score_no_column by done. left. eauto. }
  destruct (decide (labels = [])) as [->|Hne].
  { rewrite !cnv_score_no_cells by done. destruct inplace; [right|left]; eauto. }
  destruct (obsm adata !! ("X_" +:+ use_rep)) as [rep|] eqn:Hrep.
  2:{ rewrite (cnv_score_no_rep _ _ _ _ _ _ Ho Hne Hrep),
        (cnv_score_no_rep _ _ _ _ _ _ Hobs Hne Hobsm).
      left. eauto. }
  rewrite (cnv_score_run _ _ _ _ _ _ _ Ho Hrep),
    (cnv_score_run _ _ _ _ _ _ _ Hobs Hobsm).
  destruct inplace; [right|left]; eauto.
Qed.

Section congr.
Context (source : AnnData → res mtx) (message : nat → list nat → string).
Context (pearson : list Qc → list Qc → Qc) (heap : nat → Qc).
Context (adata adata' : AnnData) (groupby : string).
Context (Hnames : obs_names adata' = obs_names adata).
Context (Hsource : ∀ mask,
  source (adata_getitem adata' mask) = source (adata_getitem adata mask)).

Lemma ith_group_congr group scores :
  obs adata' !! groupby = obs adata !! groupby →
  result (ith_group source message pearson groupby group scores adata')
  = result (ith_group source message pearson groupby group scores adata).
Proof using Hnames Hsource.
  intros Hobs. destruct (obs adata !! groupby) as [labels|] eqn:Ho.
  2:{ unfold ith_group.
      by rewrite !(bind_raises _ _ _ (KeyError (VStr groupby)))
        by eauto with run. }
  assert (n_obs (group_view adata' labels group)
          = n_obs (group_view adata labels group)) as Hn.
  { unfold group_view, n_obs. simpl. by rewrite Hnames. }
  pose proof (Hsource (series_eq labels group)) as Hs. fold (group_view adata' labels group) in Hs.
  fold (group_view adata labels group) in Hs.
  destruct (source (group_view adata labels group)) as [X|e] eqn:HX.
  2:{ by rewrite (ith_group_source_raises source message pearson adata groupby
                    labels group e scores Ho HX),
        (ith_group_source_raises source message pearson adata' groupby
           labels group e scores Hobs Hs). }
  destruct (decide (shape0 X ≤ 1 ∨ shape0 X = n_obs (group_view adata labels group))%nat)
    as [Hok|Hbad].
  - rewrite (ith_group_returns source message pearson adata groupby labels
               group X scores Ho HX Hok).
    rewrite (ith_group_returns source message pearson adata' groupby labels
               group X scores Hobs Hs) by (by rewrite Hn).
    simpl. unfold store, ith_score_of. by rewrite HX, Hs.
  - rewrite (ith_group_assertion source message pearson adata groupby labels
               group X scores Ho HX) by lia.
    rewrite (ith_group_assertion source message pearson adata' groupby labels
               group X scores Hobs Hs) by lia.
    simpl. by rewrite Hn.
Qed.

Lemma ith_assign_congr scores group arr :
  obs adata' !! groupby = obs adata !! groupby →
  result (ith_assign groupby scores group arr adata')
  = result (ith_assign groupby scores group arr adata).
Proof using Type.
  intros Hobs. unfold ith_assign. destruct (scores !! group) as [v|] eqn:Hv.
  2:{ by rewrite !(bind_raises _ _ _ (KeyError group)) by eauto with run. }
  rewrite !(bind_returns _ _ _ v) by eauto with run.
  destruct (obs adata !! groupby) as [labels|] eqn:Ho.
  - by rewrite !(bind_returns _ _ _ labels) by eauto with run.
  - by rewrite !(bind_raises _ _ _ (KeyError (VStr groupby))) by eauto with run.
Qed.

Lemma ith_algorithm_congr inplace key_added :
  obs adata' !! groupby = obs adata !! groupby →
  same_effect adata adata' key_added
    (ith_algorithm source message pearson heap groupby inplace key_added adata)
    (ith_algorithm source message pearson heap groupby inplace key_added adata').
Proof using Hnames Hsource.
  intros Hobs.
  assert (∀ group scores,
    result (ith_group source message pearson groupby group scores adata')
    = result (ith_group source message pearson groupby group scores adata))
    as Hgroup by (intros; by apply ith_group_congr).
  assert (∀ scores group arr,
    result (ith_assign groupby scores group arr adata')
    = result (ith_assign groupby scores group arr adata))
    as Hassign by (intros; by apply ith_assign_congr).
  destruct (obs adata !! groupby) as [labels|] eqn:Ho.
  2:{ rewrite !ith_algorithm_no_column by done. left. eauto. }
  rewrite (ith_algorithm_unfold _ _ _ _ _ _ _ _ _ Ho),
    (ith_algorithm_unfold _ _ _ _ _ _ _ _ _ Hobs).
  pose proof (for_each_congr (unique labels)
                (ith_group source message pearson groupby) ∅ adata adata'
                (ith_group_readonly source message pearson groupby)
                Hgroup) as Hloop.
  destruct (readonly_for_each (unique labels)
              (ith_group source message pearson groupby) ∅
              (ith_group_readonly source message pearson groupby) adata)
    as [r Hr].
  destruct (readonly_for_each (unique labels)
              (ith_group source message pearson groupby) ∅
              (ith_group_readonly source message pearson groupby) adata')
    as [r' Hr'].
  rewrite Hr, Hr' in Hloop. simpl in Hloop. subst r'.
  destruct r as [scores|e].
  2:{ rewrite (bind_raises _ _ _ e Hr), (bind_raises _ _ _ e Hr'). left. eauto. }
  rewrite (bind_returns _ _ _ scores Hr), (bind_returns _ _ _ scores Hr').
  destruct inplace; [|left; eauto].
  rewrite (bind_returns _ _ _ (n_obs adata)) by eauto with run.
  rewrite (bind_returns _ _ _ (n_obs adata')) by eauto with run.
  replace (n_obs adata') with (n_obs adata) by (unfold n_obs; by rewrite Hnames).
  pose proof (for_each_congr (unique labels) (ith_assign groupby scores)
                (np_empty heap (n_obs adata)) adata adata'
                (ith_assign_readonly groupby scores)
                (Hassign scores)) as Hloop'.
  destruct (readonly_for_each (unique labels) (ith_assign groupby scores)
              (np_empty heap (n_obs adata))
              (ith_assign_readonly groupby scores) adata) as [r Ha].
  destruct (readonly_for_each (unique labels) (ith_assign groupby scores)
              (np_empty heap (n_obs adata))
              (ith_assign_readonly groupby scores) adata') as [r' Ha'].
  rewrite Ha, Ha' in Hloop'. simpl in Hloop'. subst r'.
  destruct r as [arr|e].
  - rewrite (bind_returns _ _ _ arr Ha), (bind_returns _ _ _ arr Ha').
    right. by exists arr.
  - rewrite (bind_raises _ _ _ e Ha), (bind_raises _ _ _ e Ha'). left. eauto.
Qed.

End congr.

Lemma obsm_source_congr adata adata' use_rep mask :
  obsm adata' !! use_rep = obsm adata !! use_rep →
  getitem (obsm (adata_getitem adata' mask)) use_rep
  = getitem (obsm (adata_getitem adata mask)) use_rep.
Proof. intros H. unfold getitem. simpl. by rewrite !lookup_fmap, H. Qed.

(** X11. The outcome of [cnv_score] is a function of the grouping column
    and of [obsm["X_" + use_rep]] alone, that of [ithcna] of the grouping
    column, [obsm[use_rep]] and the cell names, and that of [ithgex] of the
    grouping column, the cell names and what [_choose_mtx_rep] returns for
    the views: on two datasets that agree on these, a call has the same result
    and either changes nothing or writes the same array. *)
Theorem outcome_depends_on chooser pearson heap adata adata' groupby cnv_rep
    use_rep use_raw layer key_added inplace :
  obs adata' !! groupby = obs adata !! groupby →
  (obsm adata' !! ("X_" +:+ cnv_rep) = obsm adata !! ("X_" +:+ cnv_rep) →
   same_effect adata adata' key_added
     (cnv_score groupby cnv_rep key_added inplace None adata)
     (cnv_score groupby cnv_rep key_added inplace None adata'))
  ∧ (obs_names adata' = obs_names adata →
     obsm adata' !! use_rep = obsm adata !! use_rep →
     same_effect adata adata' key_added
       (ithcna pearson heap groupby use_rep key_added inplace adata)
       (ithcna pearson heap groupby use_rep key_added inplace adata'))
  ∧ (obs_names adata' = obs_names adata →
     (∀ mask, chooser (adata_getitem adata' mask) use_raw layer
              = chooser (adata_getitem adata mask) use_raw layer) →
     same_effect adata adata' key_added
       (ithgex chooser pearson heap groupby use_raw layer inplace key_added adata)
       (ithgex chooser pearson heap groupby use_raw layer inplace key_added
          adata')).
Proof.
  intros Hobs. split; [|split].
  - intros Hobsm. by apply cnv_score_congr.
  - intros Hnames Hobsm. rewrite ithcna_algorithm.
    apply ith_algorithm_congr; [done| |done].
    intros mask. by apply obsm_source_congr.
  - intros Hnames Hsource. rewrite ithgex_algorithm.
    by apply ith_algorithm_congr.
Qed.

Lemma outcome_depends_on_witness :
  same_effect two_groups two_groups_other_X "score"
    (cnv_score "patient" "cnv" "score" true None two_groups)
    (cnv_score "patient" "cnv" "score" true None two_groups_other_X)
  ∧ same_effect two_groups two_groups_other_X "score"
      (ithcna example_pearson example_heap "patient" "X_cnv" "score" true
         two_groups)
      (ithcna example_pearson example_heap "patient" "X_cnv" "score" true
         two_groups_other_X).
Proof.
  destruct (outcome_depends_on choose_mtx_rep_spec example_pearson example_heap
              two_groups two_groups_other_X "patient" "cnv" "X_cnv" None None
              "score" true)
    as (H1 & H2 & _); [reflexivity|].
  split; [apply H1|apply H2]; reflexivity.
Defined.

(** ** Running a function again, and running two of them *)

Lemma set_obs_set_obs adata key arr arr' :
  set_obs (set_obs adata key arr) key arr' = set_obs adata key arr'.
Proof. unfold set_obs. simpl. by rewrite insert_insert_eq. Qed.

Lemma set_obs_commute adata key key' arr arr' :
  key ≠ key' →
  set_obs (set_obs adata key arr) key' arr'
  = set_obs (set_obs adata key' arr') key arr.
Proof. intros H. unfold set_obs. simpl. by rewrite insert_insert_ne. Qed.

Lemma adata_getitem_set_obs adata key arr mask :
  adata_getitem (set_obs adata key arr) mask
  = set_obs (adata_getitem adata mask) key (select mask arr).
Proof.
  unfold adata_getitem, set_obs. simpl. by rewrite fmap_insert, select_fmap.
Qed.

Lemma same_effect_rerun {A} (f : M (option A)) adata key :
  (∀ arr, same_effect adata (set_obs adata key arr) key
            (f adata) (f (set_obs adata key arr))) →
  f (after (f adata)) = f adata.
Proof.
  intros H. destruct (H []) as [(r & Ho & _)|(arr & Ho & _)].
  { rewrite Ho at 1. simpl. done. }
  rewrite Ho. simpl.
  destruct (H arr) as [(r & Ho' & Ho'')|(arr' & Ho' & Ho'')].
  - assert (r = Ok None) as -> by congruence. by rewrite Ho''.
  - assert (set_obs adata key arr = set_obs adata key arr') as Ha by congruence.
    by rewrite Ho'', set_obs_set_obs, <-Ha.
Qed.

Lemma same_effect_after {A} (f1 f2 : M (option A)) adata key1 key2 :
  key1 ≠ key2 →
  (∀ arr, same_effect adata (set_obs adata key2 arr) key1
            (f1 adata) (f1 (set_obs adata key2 arr))) →
  (∀ arr, same_effect adata (set_obs adata key1 arr) key2
            (f2 adata) (f2 (set_obs adata key1 arr))) →
  result (f2 (after (f1 adata))) = result (f2 adata)
  ∧ result (f1 (after (f2 adata))) = result (f1 adata)
  ∧ after (f2 (after (f1 adata))) = after (f1 (after (f2 adata))).
Proof.
  intros Hne H1 H2.
  destruct (H1 []) as [(r1 & Ho1 & _)|(arr1 & Ho1 & _)];
    destruct (H2 []) as [(r2 & Ho2 & _)|(arr2 & Ho2 & _)].
  - rewrite Ho1, Ho2. simpl. by rewrite Ho1, Ho2.
  - rewrite Ho1, Ho2. simpl. rewrite Ho2. simpl.
    destruct (H1 arr2) as [(r & Ha & Hb)|(arr & Ha & Hb)].
    + assert (r = r1) as -> by congruence. by rewrite Hb.
    + assert (r1 = Ok None) as -> by congruence.
      assert (adata = set_obs adata key1 arr) as Hc by congruence.
      rewrite Hb. simpl. split_and!; [done..|].
      by rewrite set_obs_commute, <-Hc.
  - rewrite Ho1, Ho2. simpl. rewrite Ho1. simpl.
    destruct (H2 arr1) as [(r & Ha & Hb)|(arr & Ha & Hb)].
    + assert (r = r2) as -> by congruence. by rewrite Hb.
    + assert (r2 = Ok None) as -> by congruence.
      assert (adata = set_obs adata key2 arr) as Hc by congruence.
      rewrite Hb. simpl. split_and!; [done..|].
      by rewrite <-set_obs_commute, <-Hc.
  - rewrite Ho1, Ho2. simpl.
    assert (f2 (set_obs adata key1 arr1)
            = mk_outcome (Ok None) (set_obs (set_obs adata key1 arr1) key2 arr2) [])
      as ->.
    { destruct (H2 arr1) as [(r & Ha & Hb)|(arr & Ha & Hb)].
      - assert (r = Ok None) as -> by congruence.
        assert (adata = set_obs adata key2 arr2) as Hc by congruence.
        rewrite Hb. f_equal. by rewrite set_obs_commute, <-Hc.
      - assert (set_obs adata key2 arr = set_obs adata key2 arr2) as Hc
          by congruence.
        rewrite Hb. f_equal.
        by rewrite <-!(set_obs_commute adata key2 key1), Hc. }
    assert (f1 (set_obs adata key2 arr2)
            = mk_outcome (Ok None) (set_obs (set_obs adata key2 arr2) key1 arr1) [])
      as ->.
    { destruct (H1 arr2) as [(r & Ha & Hb)|(arr & Ha & Hb)].
      - assert (r = Ok None) as -> by congruence.
        assert (adata = set_obs adata key1 arr1) as Hc by congruence.
        rewrite Hb. f_equal. by rewrite <-set_obs_commute, <-Hc.
      - assert (set_obs adata key1 arr = set_obs adata key1 arr1) as Hc
          by congruence.
        rewrite Hb. f_equal.
        by rewrite !(set_obs_commute adata key2 key1), Hc by done. }
    simpl. split_and!; [done..|]. by rewrite set_obs_commute.
Qed.

Lemma cnv_score_set_obs adata groupby use_rep key_added inplace key arr :
  key ≠ groupby →
  same_effect adata (set_obs adata key arr) key_added
    (cnv_score groupby use_rep key_added inplace None adata)
    (cnv_score groupby use_rep key_added inplace None (set_obs adata key arr)).
Proof. intros Hne. apply cnv_score_congr; simpl; [by rewrite lookup_insert_ne|done]. Qed.

Lemma ith_algorithm_set_obs source message pearson heap adata groupby inplace
    key_added key arr :
  key ≠ groupby →
  (∀ tmp col, source (set_obs tmp key col) = source tmp) →
  same_effect adata (set_obs adata key arr) key_added
    (ith_algorithm source message pearson heap groupby inplace key_added adata)
    (ith_algorithm source message pearson heap groupby inplace key_added
       (set_obs adata key arr)).
Proof.
  intros Hne Hsource. apply ith_algorithm_congr; [done| |].
  - intros mask. by rewrite adata_getitem_set_obs, Hsource.
  - simpl. by rewrite lookup_insert_ne.
Qed.

Lemma ithcna_set_obs pearson heap adata groupby use_rep inplace key_added key arr :
  key ≠ groupby →
  same_effect adata (set_obs adata key arr) key_added
    (ithcna pearson heap groupby use_rep key_added inplace adata)
    (ithcna pearson heap groupby use_rep key_added inplace (set_obs adata key arr)).
Proof. intros Hne. rewrite ithcna_algorithm. by apply ith_algorithm_set_obs. Qed.

Lemma ithgex_set_obs chooser pearson heap adata groupby use_raw layer inplace
    key_added key arr :
  key ≠ groupby →
  (∀ tmp col, chooser (set_obs tmp key col) use_raw layer
              = chooser tmp use_raw layer) →
  same_effect adata (set_obs adata key arr) key_added
    (ithgex chooser pearson heap groupby use_raw layer inplace key_added adata)
    (ithgex chooser pearson heap groupby use_raw layer inplace key_added
       (set_obs adata key arr)).
Proof.
  intros Hne Hc. rewrite ithgex_algorithm. by apply ith_algorithm_set_obs.
Qed.

(** X12. When [key_added] is not the grouping column, running a function
    a second time on the dataset the first run left has the very outcome of
    the first run: the same result or exception, and the dataset the first
    run left (for [ithgex], provided [_choose_mtx_rep] does not read the
    column [key_added]). *)
Theorem second_run_changes_nothing chooser pearson heap adata groupby cnv_rep
    use_rep use_raw layer key_added inplace :
  key_added ≠ groupby →
  let cnv := cnv_score groupby cnv_rep key_added inplace None in
  let gex := ithgex chooser pearson heap groupby use_raw layer inplace key_added in
  let cna := ithcna pearson heap groupby use_rep key_added inplace in
  cnv (after (cnv adata)) = cnv adata
  ∧ cna (after (cna adata)) = cna adata
  ∧ ((∀ tmp col, chooser (set_obs tmp key_added col) use_raw layer
                 = chooser tmp use_raw layer) →
     gex (after (gex adata)) = gex adata).
Proof.
  intros Hne cnv gex cna. split_and!.
  - apply (same_effect_rerun cnv adata key_added). intros arr.
    by apply cnv_score_set_obs.
  - apply (same_effect_rerun cna adata key_added). intros arr.
    by apply ithcna_set_obs.
  - intros Hc. apply (same_effect_rerun gex adata key_added). intros arr.
    by apply ithgex_set_obs.
Qed.

Lemma second_run_changes_nothing_witness :
  let cnv := cnv_score "patient" "cnv" "score" true None in
  let gex := ithgex choose_mtx_rep_spec example_pearson example_heap "patient"
               None None true "score" in
  let cna := ithcna example_pearson example_heap "patient" "X_cnv" "score" true in
  cnv (after (cnv two_groups)) = cnv two_groups
  ∧ cna (after (cna two_groups)) = cna two_groups
  ∧ gex (after (gex two_groups)) = gex two_groups.
Proof.
  intros cnv gex cna.
  destruct (second_run_changes_nothing choose_mtx_rep_spec example_pearson
              example_heap two_groups "patient" "cnv" "X_cnv" None None "score"
              true) as (H1 & H2 & H3); [discriminate|].
  split_and!; [exact H1|exact H2|]. apply H3. reflexivity.
Defined.

(** X13. [cnv_score] and [ithcna] do not interfere when neither writes
    the other's grouping column and they write different columns: each has
    the same result after the other as on the original dataset, and the two
    orders leave the same dataset. *)
Theorem calls_do_not_interfere pearson heap adata groupby1 cnv_rep key1 inplace1
    groupby2 use_rep key2 inplace2 :
  key1 ≠ groupby2 → key2 ≠ groupby1 → key1 ≠ key2 →
  let cnv := cnv_score groupby1 cnv_rep key1 inplace1 None in
  let cna := ithcna pearson heap groupby2 use_rep key2 inplace2 in
  result (cna (after (cnv adata))) = result (cna adata)
  ∧ result (cnv (after (cna adata))) = result (cnv adata)
  ∧ after (cna (after (cnv adata))) = after (cnv (after (cna adata))).
Proof.
  intros H12 H21 Hne cnv cna.
  apply (same_effect_after cnv cna adata key1 key2 Hne); intros arr.
  - by apply cnv_score_set_obs.
  - by apply ithcna_set_obs.
Qed.

Lemma calls_do_not_interfere_witness :
  let cnv := cnv_score "patient" "cnv" "cnv_score" true None in
  let cna := ithcna example_pearson example_heap "patient" "X_cnv" "ithcna" true in
  result (cna (after (cnv two_groups))) = result (cna two_groups)
  ∧ result (cnv (after (cna two_groups))) = result (cnv two_groups)
  ∧ after (cna (after (cnv two_groups))) = after (cnv (after (cna two_groups))).
Proof.
  apply (calls_do_not_interfere example_pearson example_heap two_groups "patient"
           "cnv" "cnv_score" true "patient" "X_cnv" "ithcna" true); discriminate.
Defined.

(** ** Groups of two cells, uniform groups *)

Lemma length_group_rows labels m group :
  length labels = shape0 m →
  length (group_rows labels m group) = group_size labels group.
Proof.
  intros Hlen. unfold group_rows, group_size.
  rewrite <-select_series_eq_self. apply length_select.
  by rewrite length_dense_rows.
Qed.

Lemma iqr_pair sh p :
  p ≤ 1 → iqr (mk_ndarray sh [1; p; p; 1]) = 1 - p.
Proof.
  intros Hp.
  assert (merge_sort Qcle [1; p; p; 1] = [p; p; 1; 1]) as Hsort.
  { apply (StronglySorted_unique Qcle).
    - apply StronglySorted_merge_sort; apply _.
    - repeat constructor; done.
    - rewrite merge_sort_Permutation.
      change ([1; p; p; 1]) with ([1] ++ [p; p; 1])%list.
      by rewrite (comm (++)). }
  unfold iqr, np_percentile. cbn [data]. rewrite Hsort.
  change (length [p; p; 1; 1]) with 4%nat.
  change (75 * (4 - 1) / 100)%nat with 2%nat.
  change (25 * (4 - 1) / 100)%nat with 0%nat.
  change ((2 + 1) `min` (4 - 1))%nat with 3%nat.
  change ((0 + 1) `min` (4 - 1))%nat with 1%nat.
  cbn [nth]. ring.
Qed.




Section small.
Context (source : AnnData → res mtx) (message : nat → list nat → string).
Context (pearson : list Qc → list Qc → Qc) (heap : nat → Qc).
Context (adata : AnnData) (groupby : string) (labels : list obsval).
Context (Hobs : obs adata !! groupby = Some labels).
Context (Hsrc : source_aligned source adata labels).

Lemma ith_algorithm_score key_added group X :
  group ∈ labels →
  source (group_view adata labels group) = Ok X →
  (2 ≤ length (dense_rows X))%nat →
  ∃ d, ith_algorithm source message pearson heap groupby false key_added adata
       = mk_outcome (Ok (Some d)) adata []
     ∧ d !! group
       = Some (iqr (mk_ndarray [length (dense_rows X); length (dense_rows X)]
                      (full_corr pearson (dense_rows X)))).
Proof using Hobs Hsrc.
  intros Hin HX Hn. eexists. split; [by apply ith_algorithm_returns|].
  rewrite lookup_ith_scores, decide_True by done.
  rewrite length_dense_rows in Hn |- *.
  unfold ith_score_of. rewrite HX.
  unfold ith_score. by rewrite bool_decide_eq_false_2 by lia.
Qed.

Lemma ith_algorithm_two_cells key_added group X r1 r2 p :
  group ∈ labels →
  source (group_view adata labels group) = Ok X →
  dense_rows X = [r1; r2] →
  pearson r1 r1 = 1 → pearson r2 r2 = 1 →
  pearson r1 r2 = p → pearson r2 r1 = p → p ≤ 1 →
  ∃ d, ith_algorithm source message pearson heap groupby false key_added adata
       = mk_outcome (Ok (Some d)) adata []
     ∧ d !! group = Some (1 - p).
Proof using Hobs Hsrc.
  intros Hin HX Hrows H11 H22 H12 H21 Hp.
  destruct (ith_algorithm_score key_added group X Hin HX) as (d & Hd & Hscore).
  { rewrite Hrows. simpl. lia. }
  exists d. split; [done|]. rewrite Hscore, Hrows. f_equal.
  change (full_corr pearson [r1; r2])
    with [pearson r1 r1; pearson r1 r2; pearson r2 r1; pearson r2 r2].
  rewrite H11, H22, H12, H21. by apply iqr_pair.
Qed.


End small.

(** X14. For a group of two cells with rows [r1] and [r2] whose
    coefficient [p] is symmetric and at most 1, the diagonal coefficients
    being 1, the heterogeneity score is [1 - p]: of the four entries of the
    correlation array, percentile 75 is the diagonal's 1 and percentile 25 is
    [p]. *)
Theorem ith_two_cells chooser pearson heap adata groupby use_raw layer use_rep
    key_added labels group r1 r2 p :
  wf_adata adata →
  obs adata !! groupby = Some labels →
  group ∈ labels →
  pearson r1 r1 = 1 → pearson r2 r2 = 1 →
  pearson r1 r2 = p → pearson r2 r1 = p → p ≤ 1 →
  (source_aligned (λ tmp, chooser tmp use_raw layer) adata labels →
   ∀ X, chooser (group_view adata labels group) use_raw layer = Ok X →
   dense_rows X = [r1; r2] →
   ∃ d, result (ithgex chooser pearson heap groupby use_raw layer false key_added
                  adata) = Ok (Some d)
      ∧ d !! group = Some (1 - p))
  ∧ (∀ rep, obsm adata !! use_rep = Some rep →
     group_rows labels rep group = [r1; r2] →
     ∃ d, result (ithcna pearson heap groupby use_rep key_added false adata)
          = Ok (Some d)
        ∧ d !! group = Some (1 - p)).
Proof.
  intros Hwf Hobs Hin H11 H22 H12 H21 Hp. split.
  - intros Hsrc X HX Hrows. rewrite ithgex_algorithm.
    destruct (ith_algorithm_two_cells (λ tmp, chooser tmp use_raw layer)
                ithgex_message pearson heap adata groupby labels Hobs Hsrc
                key_added group X r1 r2 p) as (d & -> & Hd); try done.
    by exists d.
  - intros rep Hrep Hrows. rewrite ithcna_algorithm.
    destruct (ith_algorithm_two_cells (λ tmp, getitem (obsm tmp) use_rep)
                ithcna_message pearson heap adata groupby labels Hobs
                (obsm_source_aligned adata labels use_rep rep Hrep
                   (wf_adata_shape0_obsm _ _ _ Hwf Hrep))
                key_added group (mtx_getitem_rows rep (series_eq labels group))
                r1 r2 p) as (d & -> & Hd); try done.
    + by apply obsm_group_view.
    + by rewrite dense_rows_getitem_rows.
    + by exists d.
Qed.

Lemma ith_two_cells_witness :
  ∃ d, result (ithcna example_pearson example_heap "patient" "X_cnv" "ithcna"
                 false with_singleton) = Ok (Some d)
     ∧ d !! VStr "A" = Some (1 - Q2Qc 0.5).
Proof.
  destruct (ith_two_cells choose_mtx_rep_spec example_pearson example_heap
              with_singleton "patient" None None "X_cnv" "ithcna"
              [VStr "A"; VStr "A"; VStr "B"] (VStr "A")
              [Q2Qc 0.1; Q2Qc (-0.2)] [Q2Qc 0.3; Q2Qc (-0.1)] (Q2Qc 0.5))
    as [_ H].
  - exact wf_with_singleton.
  - reflexivity.
  - left.
  - by_evaluation.
  - by_evaluation.
  - by_evaluation.
  - by_evaluation.
  - by_evaluation.
  - apply (H (Dense 2 [[Q2Qc 0.1; Q2Qc (-0.2)]; [Q2Qc 0.3; Q2Qc (-0.1)];
                       [Q2Qc 1.0; Q2Qc 1.0]])); reflexivity.
Defined.



(** ** The score of a group depends on its cells alone *)

Lemma elem_of_group_size labels group :
  group ∈ labels ↔ (1 ≤ group_size labels group)%nat.
Proof.
  split; [|apply group_size_elem_of]. intros Hin. unfold group_size.
  assert (group ∈ filter (λ w, w = group) labels) as Hf
    by by apply list_elem_of_filter.
  destruct (filter (λ w, w = group) labels); [by apply elem_of_nil in Hf|].
  simpl. lia.
Qed.

Section local.
Context (adata adata' : AnnData) (groupby : string).
Context (labels labels' : list obsval) (rep rep' : mtx) (group : obsval).
Context (Hwf : wf_adata adata) (Hwf' : wf_adata adata').
Context (Hobs : obs adata !! groupby = Some labels).
Context (Hobs' : obs adata' !! groupby = Some labels').
Context (Hrows : group_rows labels rep group ≡ₚ group_rows labels' rep' group).

Lemma elem_of_labels_local key :
  obsm adata !! key = Some rep → obsm adata' !! key = Some rep' →
  group ∈ labels ↔ group ∈ labels'.
Proof using All.
  intros Hrep Hrep'.
  pose proof (wf_adata_shape0_obsm _ _ _ Hwf Hrep) as Hn.
  pose proof (wf_adata_shape0_obsm _ _ _ Hwf' Hrep') as Hn'.
  pose proof (wf_adata_length_obs _ _ _ Hwf Hobs) as Hlen.
  pose proof (wf_adata_length_obs _ _ _ Hwf' Hobs') as Hlen'.
  rewrite !elem_of_group_size.
  rewrite <-(length_group_rows labels rep group) by congruence.
  rewrite <-(length_group_rows labels' rep' group) by congruence.
  by rewrite (Permutation_length Hrows).
Qed.

Lemma cnv_score_local use_rep key_added :
  obsm adata !! ("X_" +:+ use_rep) = Some rep →
  obsm adata' !! ("X_" +:+ use_rep) = Some rep' →
  ∃ d d',
    result (cnv_score groupby use_rep key_added false None adata) = Ok (Some d)
    ∧ result (cnv_score groupby use_rep key_added false None adata')
      = Ok (Some d')
    ∧ d !! group = d' !! group.
Proof using All.
  intros Hrep Hrep'.
  rewrite (cnv_score_run _ _ _ _ _ _ _ Hobs Hrep).
  rewrite (cnv_score_run _ _ _ _ _ _ _ Hobs' Hrep'). simpl.
  do 2 eexists. split_and!; [done..|].
  assert (wf_mtx rep) as Hm.
  { destruct Hwf as (_ & _ & _ & H & _). apply (H _ _ Hrep). }
  assert (wf_mtx rep') as Hm'.
  { destruct Hwf' as (_ & _ & _ & H & _). apply (H _ _ Hrep'). }
  rewrite !lookup_collect, !lookup_empty. simpl.
  assert (group ∈ unique labels ↔ group ∈ unique labels') as Hk.
  { rewrite !elem_of_unique. by eapply elem_of_labels_local. }
  destruct (decide (group ∈ unique labels)), (decide (group ∈ unique labels'));
    [|tauto..|done].
  f_equal. rewrite !cnv_cluster_score_mean_abs by done.
  by apply mean_abs_Permutation.
Qed.

Lemma ithcna_local pearson heap use_rep key_added :
  obsm adata !! use_rep = Some rep →
  obsm adata' !! use_rep = Some rep' →
  ∃ d d',
    result (ithcna pearson heap groupby use_rep key_added false adata)
    = Ok (Some d)
    ∧ result (ithcna pearson heap groupby use_rep key_added false adata')
      = Ok (Some d')
    ∧ d !! group = d' !! group.
Proof using All.
  intros Hrep Hrep'. rewrite ithcna_algorithm.
  pose proof (wf_adata_shape0_obsm _ _ _ Hwf Hrep) as Hn.
  pose proof (wf_adata_shape0_obsm _ _ _ Hwf' Hrep') as Hn'.
  rewrite (ith_algorithm_returns _ _ _ _ adata groupby labels Hobs)
    by by eapply obsm_source_aligned.
  rewrite (ith_algorithm_returns _ _ _ _ adata' groupby labels' Hobs')
    by by eapply obsm_source_aligned.
  simpl. do 2 eexists. split_and!; [done..|]. rewrite !lookup_ith_scores.
  pose proof (elem_of_labels_local _ Hrep Hrep') as Hk.
  destruct (decide (group ∈ labels)), (decide (group ∈ labels'));
    [|tauto..|done].
  unfold ith_score_of.
  rewrite (obsm_group_view _ _ _ _ _ Hrep), (obsm_group_view _ _ _ _ _ Hrep').
  apply ith_score_Permutation. by rewrite !dense_rows_getitem_rows.
Qed.

End local.

(** X16. The score of a group depends on the cells of that group alone:
    two well-formed datasets in which a group has the same rows of the
    representation, in any order, give it the same score, or both none,
    whatever their other cells are; for [cnv_score] and for [ithcna]. *)
Theorem group_score_is_local pearson heap adata adata' groupby cnv_rep use_rep
    key_added labels labels' group :
  wf_adata adata → wf_adata adata' →
  obs adata !! groupby = Some labels →
  obs adata' !! groupby = Some labels' →
  (∀ rep rep',
     obsm adata !! ("X_" +:+ cnv_rep) = Some rep →
     obsm adata' !! ("X_" +:+ cnv_rep) = Some rep' →
     group_rows labels rep group ≡ₚ group_rows labels' rep' group →
     ∃ d d',
       result (cnv_score groupby cnv_rep key_added false None adata)
       = Ok (Some d)
       ∧ result (cnv_score groupby cnv_rep key_added false None adata')
         = Ok (Some d')
       ∧ d !! group = d' !! group)
  ∧ (∀ rep rep',
       obsm adata !! use_rep = Some rep →
       obsm adata' !! use_rep = Some rep' →
       group_rows labels rep group ≡ₚ group_rows labels' rep' group →
       ∃ d d',
         result (ithcna pearson heap groupby use_rep key_added false adata)
         = Ok (Some d)
         ∧ result (ithcna pearson heap groupby use_rep key_added false adata')
           = Ok (Some d')
         ∧ d !! group = d' !! group).
Proof.
  intros Hwf Hwf' Hobs Hobs'. split; intros rep rep' Hrep Hrep' Hrows.
  - by eapply cnv_score_local.
  - by eapply ithcna_local.
Qed.

Lemma wf_two_groups_P1 : wf_adata two_groups_P1.
Proof. by_evaluation. Defined.

Lemma group_score_is_local_witness :
  ∃ d d',
    result (ithcna example_pearson example_heap "patient" "X_cnv" "ithcna" false
              two_groups) = Ok (Some d)
    ∧ result (ithcna example_pearson example_heap "patient" "X_cnv" "ithcna"
                false two_groups_P1) = Ok (Some d')
    ∧ d !! VStr "P1" = d' !! VStr "P1".
Proof.
  destruct (group_score_is_local example_pearson example_heap two_groups
              two_groups_P1 "patient" "cnv" "X_cnv" "ithcna"
              [VStr "P1"; VStr "P2"; VStr "P1"; VStr "P2"] [VStr "P1"; VStr "P1"]
              (VStr "P1") wf_two_groups wf_two_groups_P1) as [_ H];
    [reflexivity..|].
  apply (H (Sparse 3 [[(0%nat, Q2Qc 0.1); (2%nat, Q2Qc (-0.2))];
                      [(1%nat, Q2Qc 0.3)]; []; [(0%nat, Q2Qc 1.0)]])
           (Sparse 3 [[(0%nat, Q2Qc 0.1); (2%nat, Q2Qc (-0.2))]; []]));
    [reflexivity..|].
  by_evaluation.
Defined.

(** ** Rounding *)

#[local] Set Warnings "-inexact-float".

(** In binary64 the mean of the absolute values of the scenario's group A is
    the double above 0.175, not the double nearest to 0.175: the score of
    group A is 0.175 up to rounding. *)
Remark scenario_group_A_binary64 :
  binary64_mean_abs [0.1; -0.2; 0.3; -0.1]%float = 0.17500000000000002%float
  ∧ PrimFloat.eqb (binary64_mean_abs [0.1; -0.2; 0.3; -0.1]%float) 0.175%float
    = false.
Proof. split; vm_compute; reflexivity. Qed.
